(** * A verification model of [nucypher.utilities.concurrency]

    The module provides [SetOnce], a once-settable latch, and [WorkerPool],
    which draws values from a value factory, runs a worker on each of them in
    a thread pool and waits for a target number of successes, for the factory
    to run out of values, or for a timeout.

    The threads of the pool are modelled as an interleaving of atomic steps
    over one shared state: every step is one statement (or one statement with
    the lock-protected block it opens) of the thread that takes it.  Real time
    is abstracted: a bounded wait may time out whenever the event it waits on
    is not set. *)

From stdpp Require Import gmap strings list fin_maps.

(** ** Results of a blocking, possibly failing call *)

(** What the public methods of the pool raise to their caller. *)
Inductive error : Type :=
| TimedOut
| OutOfValues
| RuntimeError (msg : string).

(** A call either cannot return yet, returns a value, or raises. *)
Inductive call (A : Type) : Type :=
| Blocks
| Returns (a : A)
| Raises (e : error).

Arguments Blocks {A}.
Arguments Returns {A} a.
Arguments Raises {A} e.

(** The two markers imported from [constant_sorrow.constants]. *)
Inductive constant : Type :=
| PRODUCER_STOPPED
| TIMEOUT_TRIGGERED.

(** ** [class SetOnce] *)

Module SetOnce.

(** [_value] is [None] for Python's [None]; [_set_event] is the flag of the
    [Event].  The [Lock] makes each method body below one atomic step. *)
Record t (T : Type) : Type := mk {
  _value : option T;
  _set_event : bool
}.

Arguments mk {T} _ _.
Arguments _value {T} _.
Arguments _set_event {T} _.

Section Methods.
Context {T : Type}.

Definition new : t T := mk None false.

Definition set (value : T) (l : t T) : t T :=
  if negb (_set_event l) then mk (Some value) true else l.

Definition is_set (l : t T) : bool := _set_event l.

(** Takes the lock, reads and resets the slot, clears the event: there is no
    wait on the event in this method. *)
Definition get_and_clear (l : t T) : call (option T) * t T :=
  (Returns (_value l), mk None false).

(** [self._set_event.wait()] and then the read of the slot. *)
Definition get (l : t T) : call (option T) :=
  if _set_event l then Returns (_value l) else Blocks.

End Methods.

End SetOnce.

(** ** [class WorkerPool] *)

Module WorkerPool.

Section Pool.

(** [V]: the values drawn from the factory, the keys of the two result
    dictionaries.  [R]: what the worker returns.  [E]: the exceptions, other
    than [Cancelled], that the worker or the factory may raise.  [W] and [F]:
    the private states of the worker and of the factory, both arbitrary
    Python callables. *)
Context {V R E W F : Type} `{Countable V}.

(** What a call of the worker or of the factory raises: the module's own
    [class Cancelled(Exception)], or anything else. *)
Inductive raised : Type :=
| Cancelled
| Exception (e : E).

(** [str(e)] *)
Variable str : E → string.

(** [self._worker(value)]: returns a result or raises. *)
Variable worker : W → V → W * (R + raised).

(** [self._value_factory(len_successes)]: returns a batch or [None], or
    raises. *)
Variable value_factory : F → nat → F * (option (list V) + raised).

(** What a worker puts on the result queue: a [Success], a [Failure], or the
    [Cancelled] exception object it caught. *)
Inductive outcome : Type :=
| Success (value : V) (result : R)
| Failure (value : V) (exception : string)
| CancelledExc.

(** The result queue carries outcomes and the marker of the producer. *)
Inductive message : Type :=
| Posted (o : outcome)
| Constant (c : constant).

(** What [_target_value] is settled with. *)
Inductive target : Type :=
| Snapshot (successes : gmap V R)
| Marker (c : constant).

(** A task of the thread pool, that is one call of [_worker_wrapper]:
    submitted and not started; past the cancellation check, in the worker;
    about to put its outcome on the queue. *)
Inductive task : Type :=
| Queued (value : V)
| Working (value : V)
| Posting (o : outcome).

(** Program points of [_produce_values]. *)
Inductive producer : Type :=
| PRead                        (* reads [len(self._successes)] *)
| PCall (len_successes : nat)  (* calls the factory *)
| PSubmit (batch : list V)     (* the [for] loop over the batch *)
| PSleep                       (* [self._sleep(self._stagger_timeout)] *)
| PCancel                      (* [self.cancel()] of the last handler *)
| PPost                        (* puts [PRODUCER_STOPPED] *)
| PDone.

(** Program points of [_process_results]. *)
Inductive processor_pc : Type :=
| Dequeue        (* [self._result_queue.get()] and the handling of the result *)
| Check          (* [if producer_stopped and ...] *)
| CancelTimeout  (* [self.cancel()] *)
| SetStopped     (* [self._target_value.set(PRODUCER_STOPPED)] *)
| Exited.

(** The result processor with its two local flags. *)
Record processor : Type := mk_processor {
  producer_stopped : bool;
  success_event_reached : bool;
  pc : processor_pc
}.

(** Program points of [_bail_on_timeout]. *)
Inductive bailer : Type :=
| Waiting    (* in [self._cancel_event.wait(timeout=self._timeout)] *)
| Fire       (* the wait timed out: [self._target_value.set(TIMEOUT_TRIGGERED)] *)
| SetCancel  (* [self._cancel_event.set()] *)
| Bailed.

(** The attributes of the pool and the states of its threads.  [_timeout],
    [_stagger_timeout] and the size of the thread pool only bound real time
    and parallelism and are left out; [_worker] and [_value_factory] hold the
    states of the two callables. *)
Record t : Type := mk {
  _target_successes : Z;
  _successes : gmap V R;
  _failures : gmap V string;
  _started_tasks : nat;
  _finished_tasks : nat;
  _cancel_event : bool;
  _result_queue : list message;
  _target_value : SetOnce.t target;
  _unexpected_error : SetOnce.t E;
  _stopped : bool;
  _threadpool : list task;
  _worker : W;
  _value_factory : F;
  _produce_values_thread : producer;
  _process_results_thread : processor;
  _bail_on_timeout_thread : bailer
}.

Definition set_successes (x : gmap V R) (s : t) : t :=
  mk (_target_successes s) x (_failures s) (_started_tasks s)
    (_finished_tasks s) (_cancel_event s) (_result_queue s)
    (_target_value s) (_unexpected_error s) (_stopped s) (_threadpool s)
    (_worker s) (_value_factory s) (_produce_values_thread s)
    (_process_results_thread s) (_bail_on_timeout_thread s).

Definition set_failures (x : gmap V string) (s : t) : t :=
  mk (_target_successes s) (_successes s) x (_started_tasks s)
    (_finished_tasks s) (_cancel_event s) (_result_queue s)
    (_target_value s) (_unexpected_error s) (_stopped s) (_threadpool s)
    (_worker s) (_value_factory s) (_produce_values_thread s)
    (_process_results_thread s) (_bail_on_timeout_thread s).

Definition set_started_tasks (x : nat) (s : t) : t :=
  mk (_target_successes s) (_successes s) (_failures s) x
    (_finished_tasks s) (_cancel_event s) (_result_queue s)
    (_target_value s) (_unexpected_error s) (_stopped s) (_threadpool s)
    (_worker s) (_value_factory s) (_produce_values_thread s)
    (_process_results_thread s) (_bail_on_timeout_thread s).

Definition set_finished_tasks (x : nat) (s : t) : t :=
  mk (_target_successes s) (_successes s) (_failures s) (_started_tasks s) x
    (_cancel_event s) (_result_queue s) (_target_value s)
    (_unexpected_error s) (_stopped s) (_threadpool s) (_worker s)
    (_value_factory s) (_produce_values_thread s)
    (_process_results_thread s) (_bail_on_timeout_thread s).

Definition set_cancel_event (x : bool) (s : t) : t :=
  mk (_target_successes s) (_successes s) (_failures s) (_started_tasks s)
    (_finished_tasks s) x (_result_queue s) (_target_value s)
    (_unexpected_error s) (_stopped s) (_threadpool s) (_worker s)
    (_value_factory s) (_produce_values_thread s)
    (_process_results_thread s) (_bail_on_timeout_thread s).

Definition set_result_queue (x : list message) (s : t) : t :=
  mk (_target_successes s) (_successes s) (_failures s) (_started_tasks s)
    (_finished_tasks s) (_cancel_event s) x (_target_value s)
    (_unexpected_error s) (_stopped s) (_threadpool s) (_worker s)
    (_value_factory s) (_produce_values_thread s)
    (_process_results_thread s) (_bail_on_timeout_thread s).

Definition set_target_value (x : SetOnce.t target) (s : t) : t :=
  mk (_target_successes s) (_successes s) (_failures s) (_started_tasks s)
    (_finished_tasks s) (_cancel_event s) (_result_queue s) x
    (_unexpected_error s) (_stopped s) (_threadpool s) (_worker s)
    (_value_factory s) (_produce_values_thread s)
    (_process_results_thread s) (_bail_on_timeout_thread s).

Definition set_unexpected_error (x : SetOnce.t E) (s : t) : t :=
  mk (_target_successes s) (_successes s) (_failures s) (_started_tasks s)
    (_finished_tasks s) (_cancel_event s) (_result_queue s)
    (_target_value s) x (_stopped s) (_threadpool s) (_worker s)
    (_value_factory s) (_produce_values_thread s)
    (_process_results_thread s) (_bail_on_timeout_thread s).

Definition set_stopped (x : bool) (s : t) : t :=
  mk (_target_successes s) (_successes s) (_failures s) (_started_tasks s)
    (_finished_tasks s) (_cancel_event s) (_result_queue s)
    (_target_value s) (_unexpected_error s) x (_threadpool s) (_worker s)
    (_value_factory s) (_produce_values_thread s)
    (_process_results_thread s) (_bail_on_timeout_thread s).

Definition set_threadpool (x : list task) (s : t) : t :=
  mk (_target_successes s) (_successes s) (_failures s) (_started_tasks s)
    (_finished_tasks s) (_cancel_event s) (_result_queue s)
    (_target_value s) (_unexpected_error s) (_stopped s) x (_worker s)
    (_value_factory s) (_produce_values_thread s)
    (_process_results_thread s) (_bail_on_timeout_thread s).

Definition set_worker (x : W) (s : t) : t :=
  mk (_target_successes s) (_successes s) (_failures s) (_started_tasks s)
    (_finished_tasks s) (_cancel_event s) (_result_queue s)
    (_target_value s) (_unexpected_error s) (_stopped s) (_threadpool s) x
    (_value_factory s) (_produce_values_thread s)
    (_process_results_thread s) (_bail_on_timeout_thread s).

Definition set_value_factory (x : F) (s : t) : t :=
  mk (_target_successes s) (_successes s) (_failures s) (_started_tasks s)
    (_finished_tasks s) (_cancel_event s) (_result_queue s)
    (_target_value s) (_unexpected_error s) (_stopped s) (_threadpool s)
    (_worker s) x (_produce_values_thread s) (_process_results_thread s)
    (_bail_on_timeout_thread s).

Definition set_produce_values_thread (x : producer) (s : t) : t :=
  mk (_target_successes s) (_successes s) (_failures s) (_started_tasks s)
    (_finished_tasks s) (_cancel_event s) (_result_queue s)
    (_target_value s) (_unexpected_error s) (_stopped s) (_threadpool s)
    (_worker s) (_value_factory s) x (_process_results_thread s)
    (_bail_on_timeout_thread s).

Definition set_process_results_thread (x : processor) (s : t) : t :=
  mk (_target_successes s) (_successes s) (_failures s) (_started_tasks s)
    (_finished_tasks s) (_cancel_event s) (_result_queue s)
    (_target_value s) (_unexpected_error s) (_stopped s) (_threadpool s)
    (_worker s) (_value_factory s) (_produce_values_thread s) x
    (_bail_on_timeout_thread s).

Definition set_bail_on_timeout_thread (x : bailer) (s : t) : t :=
  mk (_target_successes s) (_successes s) (_failures s) (_started_tasks s)
    (_finished_tasks s) (_cancel_event s) (_result_queue s)
    (_target_value s) (_unexpected_error s) (_stopped s) (_threadpool s)
    (_worker s) (_value_factory s) (_produce_values_thread s)
    (_process_results_thread s) x.

(** [__init__] followed by [start]: empty dictionaries, zero counters, fresh
    latches, and the three service threads at their first statement.  The
    constructor checks none of its arguments. *)
Definition init (worker_state : W) (factory_state : F)
    (target_successes : Z) : t :=
  mk target_successes ∅ ∅ 0 0 false [] SetOnce.new SetOnce.new false []
    worker_state factory_state PRead (mk_processor false false Dequeue)
    Waiting.

(** *** Public methods *)

Definition cancel (s : t) : t := set_cancel_event true s.

Definition get_failures (s : t) : gmap V string := _failures s.

Definition get_successes (s : t) : gmap V R := _successes s.

(** The [{e}] of the two f-strings. *)
Definition format (e : option E) : string :=
  match e with
  | Some e => str e
  | None => "None"%string
  end.

Definition unexpected (e : option E) : error :=
  RuntimeError
    (String.append "Unexpected error in the producer thread: " (format e)).

Definition threads_finished (s : t) : bool :=
  match _produce_values_thread s, pc (_process_results_thread s),
        _bail_on_timeout_thread s with
  | PDone, Exited, Bailed => true
  | _, _, _ => false
  end.

(** [join]: blocked until the three service threads have finished. *)
Definition join (s : t) : call unit * t :=
  if _stopped s then (Returns tt, s)
  else if threads_finished s then
    let s := set_stopped true s in
    if SetOnce.is_set (_unexpected_error s) then
      match SetOnce.get (_unexpected_error s) with
      | Returns e => (Raises (unexpected e), s)
      | Blocks => (Blocks, s)
      | Raises x => (Raises x, s)
      end
    else (Returns tt, s)
  else (Blocks, s).

(** [block_until_target_successes]; the result is [None] only if the latch
    holds Python's [None]. *)
Definition block_until_target_successes (s : t)
    : call (option (gmap V R)) * t :=
  if SetOnce.is_set (_unexpected_error s) then
    match SetOnce.get_and_clear (_unexpected_error s) with
    | (Returns e, l) => (Raises (unexpected e), set_unexpected_error l s)
    | (Blocks, l) => (Blocks, set_unexpected_error l s)
    | (Raises x, l) => (Raises x, set_unexpected_error l s)
    end
  else
    match SetOnce.get (_target_value s) with
    | Blocks => (Blocks, s)
    | Raises x => (Raises x, s)
    | Returns (Some (Marker TIMEOUT_TRIGGERED)) => (Raises TimedOut, s)
    | Returns (Some (Marker PRODUCER_STOPPED)) => (Raises OutOfValues, s)
    | Returns (Some (Snapshot result)) => (Returns (Some result), s)
    | Returns None => (Returns None, s)
    end.

(** *** [_worker_wrapper] *)

(** [_sleep] as the wrapper uses it, with a zero timeout: raises [Cancelled]
    when the event is set. *)
Definition _sleep (cancel_event : bool) : unit + raised :=
  if cancel_event then inr Cancelled else inl tt.

(** The two [except] clauses: [Cancelled] is put on the queue as it is,
    anything else as a [Failure] with its [str]. *)
Definition handler (value : V) (x : raised) : outcome :=
  match x with
  | Cancelled => CancelledExc
  | Exception e => Failure value (str e)
  end.

(** The body of the [try]: the state of the worker, what was put on the
    queue, and whether the body completed or raised. *)
Definition try_body (cancel_event : bool) (w : W) (value : V)
    : W * list outcome * (unit + raised) :=
  match _sleep cancel_event with
  | inr x => (w, [], inr x)
  | inl _ =>
      match worker w value with
      | (w', inl result) => (w', [Success value result], inl tt)
      | (w', inr x) => (w', [], inr x)
      end
  end.

(** One whole call of the wrapper, given what the check of the cancel event
    observes: the new state of the worker, the outcomes put on the queue in
    order, and how the call ends. *)
Definition _worker_wrapper (cancel_event : bool) (w : W) (value : V)
    : W * list outcome * (unit + raised) :=
  match try_body cancel_event w value with
  | (w', posted, inl _) => (w', posted, inl tt)
  | (w', posted, inr x) => (w', posted ++ [handler value x], inl tt)
  end.

(** *** The threads, one statement at a time *)

(** [_produce_values]. *)
Definition produce (s : t) : option t :=
  match _produce_values_thread s with
  | PRead =>
      Some (set_produce_values_thread (PCall (size (_successes s))) s)
  | PCall len_successes =>
      let '(f, batch) := value_factory (_value_factory s) len_successes in
      let s := set_value_factory f s in
      match batch with
      | inl None | inl (Some []) =>
          Some (set_produce_values_thread PPost s)
      | inl (Some batch) =>
          Some (set_produce_values_thread (PSubmit batch)
                  (set_started_tasks (_started_tasks s + length batch) s))
      | inr Cancelled =>
          Some (set_produce_values_thread PPost s)
      | inr (Exception e) =>
          Some (set_produce_values_thread PCancel
                  (set_unexpected_error
                     (SetOnce.set e (_unexpected_error s)) s))
      end
  | PSubmit (value :: batch) =>
      Some (set_produce_values_thread (PSubmit batch)
              (set_threadpool (_threadpool s ++ [Queued value]) s))
  | PSubmit [] =>
      Some (set_produce_values_thread PSleep s)
  | PSleep =>
      if _cancel_event s
      then Some (set_produce_values_thread PPost s)
      else Some (set_produce_values_thread PRead s)
  | PCancel =>
      Some (set_produce_values_thread PPost (cancel s))
  | PPost =>
      Some (set_produce_values_thread PDone
              (set_result_queue
                 (_result_queue s ++ [Constant PRODUCER_STOPPED]) s))
  | PDone => None
  end.

(** The next statement of the [i]-th call of [_worker_wrapper] in the thread
    pool. *)
Definition work (i : nat) (s : t) : option t :=
  match _threadpool s !! i with
  | None => None
  | Some (Queued value) =>
      let next :=
        match _sleep (_cancel_event s) with
        | inr x => Posting (handler value x)
        | inl _ => Working value
        end in
      Some (set_threadpool (<[i := next]> (_threadpool s)) s)
  | Some (Working value) =>
      let '(w, r) := worker (_worker s) value in
      let next :=
        match r with
        | inl result => Posting (Success value result)
        | inr x => Posting (handler value x)
        end in
      Some (set_worker w (set_threadpool (<[i := next]> (_threadpool s)) s))
  | Some (Posting o) =>
      Some (set_result_queue (_result_queue s ++ [Posted o])
              (set_threadpool (delete i (_threadpool s)) s))
  end.

(** The handling of one dequeued result that is not [PRODUCER_STOPPED]. *)
Definition record (result : message) (s : t) : t :=
  let s := set_finished_tasks (_finished_tasks s + 1) s in
  let s :=
    match result with
    | Posted (Success value result) =>
        let s := set_successes (<[value := result]> (_successes s)) s in
        let len_successes := size (_successes s) in
        let p := _process_results_thread s in
        if negb (success_event_reached p)
           && (Z.of_nat len_successes =? _target_successes s)%Z
        then
          set_target_value
            (SetOnce.set (Snapshot (get_successes s)) (_target_value s))
            (set_process_results_thread
               (mk_processor (producer_stopped p) true (pc p)) s)
        else s
    | _ => s
    end in
  match result with
  | Posted (Failure value exception) =>
      set_failures (<[value := exception]> (_failures s)) s
  | _ => s
  end.

Definition goto (l : processor_pc) (s : t) : t :=
  let p := _process_results_thread s in
  set_process_results_thread
    (mk_processor (producer_stopped p) (success_event_reached p) l) s.

(** [_process_results]. *)
Definition process (s : t) : option t :=
  let p := _process_results_thread s in
  match pc p with
  | Dequeue =>
      match _result_queue s with
      | [] => None
      | result :: queue =>
          let s := set_result_queue queue s in
          match result with
          | Constant PRODUCER_STOPPED =>
              Some (set_process_results_thread
                      (mk_processor true (success_event_reached p) Check) s)
          | _ => Some (goto Check (record result s))
          end
      end
  | Check =>
      if producer_stopped p && (_finished_tasks s =? _started_tasks s)
      then Some (goto CancelTimeout s)
      else Some (goto Dequeue s)
  | CancelTimeout => Some (goto SetStopped (cancel s))
  | SetStopped =>
      Some (goto Exited
              (set_target_value
                 (SetOnce.set (Marker PRODUCER_STOPPED) (_target_value s)) s))
  | Exited => None
  end.

(** The wait of [_bail_on_timeout] times out: possible only while the cancel
    event is not set. *)
Definition timer_expires (s : t) : option t :=
  match _bail_on_timeout_thread s with
  | Waiting =>
      if _cancel_event s then None
      else Some (set_bail_on_timeout_thread Fire s)
  | _ => None
  end.

(** The other statements of [_bail_on_timeout]. *)
Definition bail (s : t) : option t :=
  match _bail_on_timeout_thread s with
  | Waiting =>
      if _cancel_event s
      then Some (set_bail_on_timeout_thread SetCancel s)
      else None
  | Fire =>
      Some (set_bail_on_timeout_thread SetCancel
              (set_target_value
                 (SetOnce.set (Marker TIMEOUT_TRIGGERED) (_target_value s))
                 s))
  | SetCancel => Some (set_bail_on_timeout_thread Bailed (cancel s))
  | Bailed => None
  end.

(** *** Runs *)

(** Who takes the next step: one of the threads of the pool, or the caller
    with one of the public methods that change the pool. *)
Inductive action : Type :=
| Produce
| Work (i : nat)
| Process
| TimerExpires
| Bail
| CallCancel
| CallBlockUntilTargetSuccesses
| CallJoin.

(** A call of the caller is a step once it returns or raises. *)
Definition completed {A : Type} (r : call A * t) : option t :=
  match r with
  | (Blocks, _) => None
  | (_, s) => Some s
  end.

Definition step (a : action) (s : t) : option t :=
  match a with
  | Produce => produce s
  | Work i => work i s
  | Process => process s
  | TimerExpires => timer_expires s
  | Bail => bail s
  | CallCancel => Some (cancel s)
  | CallBlockUntilTargetSuccesses => completed (block_until_target_successes s)
  | CallJoin => completed (join s)
  end.

Fixpoint run (schedule : list action) (s : t) : option t :=
  match schedule with
  | [] => Some s
  | a :: schedule =>
      match step a s with
      | Some s => run schedule s
      | None => None
      end
  end.

(** The states the pool can be in after some run from [s0]. *)
Definition reachable (s0 s : t) : Prop :=
  ∃ schedule, run schedule s0 = Some s.

(** The values a step draws from the factory. *)
Definition emits (a : action) (s : t) : list V :=
  match a, _produce_values_thread s with
  | Produce, PCall len_successes =>
      match value_factory (_value_factory s) len_successes with
      | (_, inl (Some batch)) => batch
      | _ => []
      end
  | _, _ => []
  end.

(** All the values drawn from the factory along a run, in order. *)
Fixpoint emitted (schedule : list action) (s : t) : list V :=
  match schedule with
  | [] => []
  | a :: schedule =>
      emits a s ++
      match step a s with
      | Some s => emitted schedule s
      | None => []
      end
  end.

(** The number of calls of the factory along a run. *)
Fixpoint factory_calls (schedule : list action) (s : t) : nat :=
  match schedule with
  | [] => 0
  | a :: schedule =>
      match a, _produce_values_thread s with
      | Produce, PCall _ => 1
      | _, _ => 0
      end +
      match step a s with
      | Some s => factory_calls schedule s
      | None => 0
      end
  end.

End Pool.

End WorkerPool.

(** ** [class AllAtOnceFactory] *)

Module AllAtOnceFactory.

Record t (V : Type) : Type := mk {
  values : list V;
  _produced : bool
}.

Arguments mk {V} _ _.
Arguments values {V} _.
Arguments _produced {V} _.

Definition new {V : Type} (values : list V) : t V := mk values false.

(** [__call__]: all the values on the first call, [None] afterwards. *)
Definition __call__ {V E : Type} (self : t V) (_successes : nat)
    : t V * (option (list V) + @WorkerPool.raised E) :=
  if _produced self then (self, inl None)
  else (mk (values self) true, inl (Some (values self))).

(** What successive calls return, given the success counts they are passed. *)
Fixpoint replay {V E : Type} (self : t V) (counts : list nat)
    : list (option (list V) + @WorkerPool.raised E) :=
  match counts with
  | [] => []
  | n :: counts =>
      let '(self, r) := __call__ self n in r :: replay self counts
  end.

End AllAtOnceFactory.

(** ** Notions used to state the properties of the pool *)

Section Notions.

Context {V R E W F : Type} `{Countable V}.

Local Abbreviation pool := (@WorkerPool.t V R E W F _ _).

(** A latch is settled with [x]. *)
Definition settled_with {T : Type} (l : SetOnce.t T) (x : T) : Prop :=
  SetOnce.is_set l = true ∧ SetOnce._value l = Some x.

(** The outcomes waiting on the result queue: everything but the marker of
    the producer. *)
Fixpoint outcomes (queue : list (@WorkerPool.message V R)) : nat :=
  match queue with
  | [] => 0
  | WorkerPool.Constant PRODUCER_STOPPED :: queue => outcomes queue
  | _ :: queue => S (outcomes queue)
  end.

(** The values of the current batch that the producer has counted in
    [_started_tasks] and not yet handed to the thread pool. *)
Definition unsubmitted (p : @WorkerPool.producer V) : nat :=
  match p with
  | WorkerPool.PSubmit batch => length batch
  | _ => 0
  end.

(** The result processor has taken [PRODUCER_STOPPED] off the queue. *)
Definition sentinel_observed (s : pool) : Prop :=
  WorkerPool.producer_stopped (WorkerPool._process_results_thread s) = true.

(** No call of the wrapper is queued or running in the thread pool. *)
Definition no_work_in_flight (s : pool) : Prop :=
  WorkerPool._threadpool s = [].

(** Every started task is finished, waits on the queue, sits in the thread
    pool or is about to be submitted; and once the marker of the producer is
    on the queue or has been seen, the producer has finished. *)
Definition accounted (s : pool) : Prop :=
  WorkerPool._started_tasks s =
    WorkerPool._finished_tasks s + outcomes (WorkerPool._result_queue s)
    + length (WorkerPool._threadpool s)
    + unsubmitted (WorkerPool._produce_values_thread s)
  ∧ (WorkerPool.Constant PRODUCER_STOPPED ∈ WorkerPool._result_queue s
     ∨ sentinel_observed s
     → WorkerPool._produce_values_thread s = WorkerPool.PDone).

(** The value an outcome is about, if any. *)
Definition outcome_value (o : @WorkerPool.outcome V R) : list V :=
  match o with
  | WorkerPool.Success value _ | WorkerPool.Failure value _ => [value]
  | WorkerPool.CancelledExc => []
  end.

Definition task_value (t : @WorkerPool.task V R) : list V :=
  match t with
  | WorkerPool.Queued value | WorkerPool.Working value => [value]
  | WorkerPool.Posting o => outcome_value o
  end.

Definition message_value (m : @WorkerPool.message V R) : list V :=
  match m with
  | WorkerPool.Posted o => outcome_value o
  | WorkerPool.Constant _ => []
  end.

Definition batch_of (p : @WorkerPool.producer V) : list V :=
  match p with
  | WorkerPool.PSubmit batch => batch
  | _ => []
  end.

(** The values the pool holds, each as often as it holds it: those of the
    batch being submitted, of the calls in the thread pool and of the
    outcomes on the queue, and the keys of the two dictionaries. *)
Definition held (s : pool) : list V :=
  batch_of (WorkerPool._produce_values_thread s)
  ++ (WorkerPool._threadpool s ≫= task_value)
  ++ (WorkerPool._result_queue s ≫= message_value)
  ++ elements (dom (WorkerPool._successes s))
  ++ elements (dom (WorkerPool._failures s)).

(** The terminal latch is unset or holds one of the two markers. *)
Definition markers_only (s : pool) : Prop :=
  WorkerPool._target_value s = SetOnce.new
  ∨ ∃ c, WorkerPool._target_value s
         = SetOnce.mk (Some (WorkerPool.Marker c)) true.

(** What one call of the wrapper puts on the queue, given what the check of
    the cancel event observes. *)
Definition posted_by (str : E → string)
    (worker : W → V → W * (R + @WorkerPool.raised E))
    (cancel_event : bool) (w : W) (value : V) : @WorkerPool.outcome V R :=
  if cancel_event then WorkerPool.CancelledExc
  else match (worker w value).2 with
       | inl result => WorkerPool.Success value result
       | inr WorkerPool.Cancelled => WorkerPool.CancelledExc
       | inr (WorkerPool.Exception e) => WorkerPool.Failure value (str e)
       end.

(** An outcome the worker accounts for: a success carries a result the
    worker has returned for the value, a failure the [str] of an exception
    the worker has raised for it. *)
Definition genuine (str : E → string)
    (worker : W → V → W * (R + @WorkerPool.raised E))
    (o : @WorkerPool.outcome V R) : Prop :=
  match o with
  | WorkerPool.Success value result =>
      ∃ w, (worker w value).2 = inl result
  | WorkerPool.Failure value exception =>
      ∃ w e, (worker w value).2 = inr (WorkerPool.Exception e)
             ∧ exception = str e
  | WorkerPool.CancelledExc => True
  end.

Definition genuine_task (str : E → string)
    (worker : W → V → W * (R + @WorkerPool.raised E))
    (t : @WorkerPool.task V R) : Prop :=
  match t with
  | WorkerPool.Posting o => genuine str worker o
  | _ => True
  end.

Definition genuine_message (str : E → string)
    (worker : W → V → W * (R + @WorkerPool.raised E))
    (m : @WorkerPool.message V R) : Prop :=
  match m with
  | WorkerPool.Posted o => genuine str worker o
  | _ => True
  end.

(** Every outcome in the pool, on its way or recorded, is genuine. *)
Definition faithful (str : E → string)
    (worker : W → V → W * (R + @WorkerPool.raised E)) (s : pool) : Prop :=
  Forall (genuine_task str worker) (WorkerPool._threadpool s)
  ∧ Forall (genuine_message str worker) (WorkerPool._result_queue s)
  ∧ (∀ k r, WorkerPool._successes s !! k = Some r →
            genuine str worker (WorkerPool.Success k r))
  ∧ (∀ k x, WorkerPool._failures s !! k = Some x →
            genuine str worker (WorkerPool.Failure k x))
  ∧ (∀ m k r,
       SetOnce._value (WorkerPool._target_value s)
       = Some (WorkerPool.Snapshot m) →
       m !! k = Some r → genuine str worker (WorkerPool.Success k r)).

(** [block_until_target_successes()] does nothing but translate the
    terminal latch: it leaves the pool as it is, blocks exactly while the
    latch is unset, returns the snapshot exactly when the latch is settled
    with one, and raises [TimedOut], respectively [OutOfValues], exactly when
    the latch is settled with [TIMEOUT_TRIGGERED], respectively
    [PRODUCER_STOPPED]. *)
Definition translates_the_latch (str : E → string) (s : pool) : Prop :=
  let r := WorkerPool.block_until_target_successes str s in
  r.2 = s
  ∧ (r.1 = Blocks ↔ SetOnce.is_set (WorkerPool._target_value s) = false)
  ∧ (∀ m, r.1 = Returns (Some m)
          ↔ settled_with (WorkerPool._target_value s) (WorkerPool.Snapshot m))
  ∧ (r.1 = Raises TimedOut
     ↔ settled_with (WorkerPool._target_value s)
         (WorkerPool.Marker TIMEOUT_TRIGGERED))
  ∧ (r.1 = Raises OutOfValues
     ↔ settled_with (WorkerPool._target_value s)
         (WorkerPool.Marker PRODUCER_STOPPED)).

(** The markers of the producer waiting on the result queue. *)
Fixpoint sentinels (queue : list (@WorkerPool.message V R)) : nat :=
  match queue with
  | [] => 0
  | WorkerPool.Constant PRODUCER_STOPPED :: queue => S (sentinels queue)
  | _ :: queue => sentinels queue
  end.

(** The call of the wrapper is inside the worker. *)
Definition in_worker (t : @WorkerPool.task V R) : bool :=
  match t with
  | WorkerPool.Working _ => true
  | _ => false
  end.

(** The producer is past its loop. *)
Definition out_of_loop (p : @WorkerPool.producer V) : bool :=
  match p with
  | WorkerPool.PCancel | WorkerPool.PPost | WorkerPool.PDone => true
  | _ => false
  end.

(** The calls of the factory the producer can still make once the cancel
    event is set. *)
Definition calls_left (p : @WorkerPool.producer V) : nat :=
  match p with
  | WorkerPool.PRead | WorkerPool.PCall _ => 1
  | _ => 0
  end.

Definition finished_producing (p : @WorkerPool.producer V) : bool :=
  match p with
  | WorkerPool.PDone => true
  | _ => false
  end.

(** A latch holds a value exactly when it is settled. *)
Definition well_formed {T : Type} (l : SetOnce.t T) : Prop :=
  SetOnce.is_set l = true ↔ is_Some (SetOnce._value l).

(** What the threads keep in order: the two latches are well formed; the
    timeout thread ends with the cancel event set; while an error is latched
    the producer is past its loop and, past its [cancel()], the cancel event
    is set; the producer leaves exactly one marker, as it finishes; and the
    result processor goes past its last check only with the marker seen and
    every started task finished, and ends with the terminal latch settled. *)
Definition tidy (s : pool) : Prop :=
  well_formed (WorkerPool._target_value s)
  ∧ well_formed (WorkerPool._unexpected_error s)
  ∧ (WorkerPool._bail_on_timeout_thread s = WorkerPool.Bailed →
     WorkerPool._cancel_event s = true)
  ∧ (SetOnce.is_set (WorkerPool._unexpected_error s) = true →
     out_of_loop (WorkerPool._produce_values_thread s) = true
     ∧ (WorkerPool._produce_values_thread s ≠ WorkerPool.PCancel →
        WorkerPool._cancel_event s = true))
  ∧ sentinels (WorkerPool._result_queue s)
    + (if WorkerPool.producer_stopped (WorkerPool._process_results_thread s)
       then 1 else 0)
    = (if finished_producing (WorkerPool._produce_values_thread s)
       then 1 else 0)
  ∧ (WorkerPool.pc (WorkerPool._process_results_thread s)
     = WorkerPool.CancelTimeout
     ∨ WorkerPool.pc (WorkerPool._process_results_thread s)
       = WorkerPool.SetStopped
     ∨ WorkerPool.pc (WorkerPool._process_results_thread s)
       = WorkerPool.Exited →
     sentinel_observed s
     ∧ WorkerPool._finished_tasks s = WorkerPool._started_tasks s)
  ∧ (WorkerPool.pc (WorkerPool._process_results_thread s)
     = WorkerPool.Exited →
     SetOnce.is_set (WorkerPool._target_value s) = true).

(** What keeps the pool going: the producer, once finished, has left its
    marker; the result processor does not wait for a result when all the
    started tasks are finished and the producer has stopped; and the cancel
    event is set once the result processor is past its [cancel()]. *)
Definition alive (s : pool) : Prop :=
  (WorkerPool._produce_values_thread s = WorkerPool.PDone →
   WorkerPool.Constant PRODUCER_STOPPED ∈ WorkerPool._result_queue s
   ∨ sentinel_observed s)
  ∧ (WorkerPool.pc (WorkerPool._process_results_thread s)
     = WorkerPool.Dequeue →
     sentinel_observed s →
     WorkerPool._finished_tasks s ≠ WorkerPool._started_tasks s)
  ∧ (WorkerPool.pc (WorkerPool._process_results_thread s)
     = WorkerPool.SetStopped
     ∨ WorkerPool.pc (WorkerPool._process_results_thread s)
       = WorkerPool.Exited →
     WorkerPool._cancel_event s = true).

(** The steps that are neither the timeout firing nor a cancellation by
    the caller. *)
Definition calm (a : WorkerPool.action) : bool :=
  match a with
  | WorkerPool.TimerExpires | WorkerPool.CallCancel => false
  | _ => true
  end.

(** The steps of the threads of the pool, the timeout not firing. *)
Definition of_thread (a : WorkerPool.action) : bool :=
  match a with
  | WorkerPool.Produce | WorkerPool.Work _
  | WorkerPool.Process | WorkerPool.Bail => true
  | _ => false
  end.

(** A schedule in which the timeout never fires and the caller never
    cancels. *)
Definition undisturbed (schedule : list WorkerPool.action) : bool :=
  forallb calm schedule.

(** A schedule of steps of the threads of the pool only, the timeout never
    firing. *)
Definition threads_only (schedule : list WorkerPool.action) : bool :=
  forallb of_thread schedule.

End Notions.

(** ** Concrete pools *)

Module Examples.

Import WorkerPool.

(** In the examples an exception is represented by its message. *)
Definition message_of (e : string) : string := e.

(** A worker that returns its value. *)
Definition identity (w : unit) (value : Z) : unit * (Z + @raised string) :=
  (w, inl value).

(** A worker that raises the module's [Cancelled]. *)
Definition giving_up (w : unit) (value : Z) : unit * (Z + @raised string) :=
  (w, inr Cancelled).

(** A worker that returns its value on its first call and raises on every
    later one; its state counts the calls. *)
Definition flaky (calls : nat) (value : Z) : nat * (Z + @raised string) :=
  (S calls,
   match calls with
   | 0 => inl value
   | S _ => inr (Exception "boom"%string)
   end).

(** A factory that raises. *)
Definition broken_factory (f : unit) (_successes : nat)
    : unit * (option (list Z) + @raised string) :=
  (f, inr (Exception "boom"%string)).

(** The values [1..N]. *)
Definition one_to (N : nat) : list Z := seqZ 1 (Z.of_nat N).

(** The dictionary [{i: i for i in 1..N}]. *)
Definition all_successes (N : nat) : gmap Z Z :=
  list_to_map ((λ i, (i, i)) <$> one_to N).

(** The pool of the identity worker over [AllAtOnceFactory([1..N])]. *)
Definition round_trip (N : nat) (target_successes : Z)
    : @WorkerPool.t Z Z string unit (AllAtOnceFactory.t Z) _ _ :=
  init tt (AllAtOnceFactory.new (one_to N)) target_successes.

(** A pool whose factory raises on its first call. *)
Definition broken : @WorkerPool.t Z Z string unit unit _ _ := init tt tt 1.

(** The run of [broken] to the end of its three threads. *)
Definition broken_schedule : list action :=
  [Produce; Produce; Produce; Produce;
   Process; Process; Process; Process; Bail; Bail].

(** The flaky worker over a factory that yields the value [1] twice. *)
Definition repeated : @WorkerPool.t Z Z string nat (AllAtOnceFactory.t Z) _ _ :=
  init 0 (AllAtOnceFactory.new [1; 1]%Z) 5.

(** Both values are submitted, run and their outcomes recorded. *)
Definition repeated_schedule : list action :=
  repeat Produce 9 ++ repeat (Work 0) 6 ++ repeat Process 5.

(** [round_trip 1 _]: the value is submitted, the producer finishes, and the
    result processor takes the marker of the producer off the queue while
    the task has not started. *)
Definition slow_schedule : list action := repeat Produce 8 ++ [Process].

(** [round_trip 1 _]: the producer, then the task, then the result
    processor, then the timeout thread, each to its end. *)
Definition complete_schedule : list action :=
  repeat Produce 8 ++ repeat (Work 0) 3 ++ repeat Process 6 ++ [Bail; Bail].

(** [round_trip 1 _] from the state [slow_schedule] leads to, on to the
    end. *)
Definition catch_up_schedule : list action :=
  repeat (Work 0) 3 ++ repeat Process 5 ++ [Bail; Bail].

(** [round_trip 1 _] cancelled at the start: the producer still submits its
    batch and finishes, the wrapper answers the task without the worker,
    and the result processor and the timeout thread run to their ends. *)
Definition cancelled_schedule : list action :=
  repeat Produce 6 ++ repeat (Work 0) 2 ++ repeat Process 6 ++ [Bail; Bail].

(** [round_trip 1 _]: the wait of the timeout thread times out before any
    other thread has taken a step, and the timeout thread runs to its end. *)
Definition timeout_schedule : list action := [TimerExpires; Bail; Bail].

(** The state of [broken] after [broken_schedule]. *)
Definition broken_end : @WorkerPool.t Z Z string unit unit _ _ :=
  mk 1 ∅ ∅ 0 0 true []
    (SetOnce.mk (Some (Marker PRODUCER_STOPPED)) true)
    (SetOnce.mk (Some "boom"%string) true) false [] tt tt PDone
    (mk_processor true false Exited) Bailed.

(** The state of [round_trip 1 1] after [slow_schedule]. *)
Definition round_trip_slow
    : @WorkerPool.t Z Z string unit (AllAtOnceFactory.t Z) _ _ :=
  mk 1 ∅ ∅ 1 0 false [] SetOnce.new SetOnce.new false [Queued 1%Z] tt
    (AllAtOnceFactory.mk [1%Z] true) PDone
    (mk_processor true false Check) Waiting.

(** The state of [round_trip 1 target] after [complete_schedule], for the
    targets 1 and 0. *)
Definition round_trip_end
    : @WorkerPool.t Z Z string unit (AllAtOnceFactory.t Z) _ _ :=
  mk 1 {[1%Z := 1%Z]} ∅ 1 1 true []
    (SetOnce.mk (Some (Snapshot {[1%Z := 1%Z]})) true) SetOnce.new false []
    tt (AllAtOnceFactory.mk [1%Z] true) PDone
    (mk_processor true true Exited) Bailed.

Definition round_trip_end_0
    : @WorkerPool.t Z Z string unit (AllAtOnceFactory.t Z) _ _ :=
  mk 0 {[1%Z := 1%Z]} ∅ 1 1 true []
    (SetOnce.mk (Some (Marker PRODUCER_STOPPED)) true) SetOnce.new false []
    tt (AllAtOnceFactory.mk [1%Z] true) PDone
    (mk_processor true false Exited) Bailed.

(** The state of [cancel (round_trip 1 1)] after [cancelled_schedule]. *)
Definition cancelled_end
    : @WorkerPool.t Z Z string unit (AllAtOnceFactory.t Z) _ _ :=
  mk 1 ∅ ∅ 1 1 true []
    (SetOnce.mk (Some (Marker PRODUCER_STOPPED)) true) SetOnce.new false []
    tt (AllAtOnceFactory.mk [1%Z] true) PDone
    (mk_processor true false Exited) Bailed.

(** The state of [round_trip 1 1] after [timeout_schedule]. *)
Definition timed_out
    : @WorkerPool.t Z Z string unit (AllAtOnceFactory.t Z) _ _ :=
  mk 1 ∅ ∅ 0 0 true []
    (SetOnce.mk (Some (Marker TIMEOUT_TRIGGERED)) true) SetOnce.new false []
    tt (AllAtOnceFactory.mk [1%Z] false) PRead
    (mk_processor false false Dequeue) Bailed.

(** The state of [repeated] after [repeated_schedule]. *)
Definition repeated_end
    : @WorkerPool.t Z Z string nat (AllAtOnceFactory.t Z) _ _ :=
  mk 5 {[1%Z := 1%Z]} {[1%Z := "boom"%string]} 2 2 false [] SetOnce.new
    SetOnce.new false [] 2 (AllAtOnceFactory.mk [1%Z; 1%Z] true) PDone
    (mk_processor true false Check) Waiting.

End Examples.

(** ** The round trip: notions *)

Module RoundTrip.

Import WorkerPool Examples.

Abbreviation pool :=
  (@WorkerPool.t Z Z string unit (AllAtOnceFactory.t Z) _ _).

(** The only outcomes of the identity worker over [1..N]. *)
Definition fine_outcome (N : nat) (o : @outcome Z Z) : Prop :=
  match o with
  | Success value result => result = value ∧ value ∈ one_to N
  | _ => False
  end.

Definition fine_task (N : nat) (t : @task Z Z) : Prop :=
  match t with
  | Queued value | Working value => value ∈ one_to N
  | Posting o => fine_outcome N o
  end.

Definition fine_message (N : nat) (m : @message Z Z) : Prop :=
  match m with
  | Posted o => fine_outcome N o
  | Constant c => c = PRODUCER_STOPPED
  end.

(** The values on their way to the success dictionary. *)
Definition in_flight (s : pool) : list Z :=
  batch_of (_produce_values_thread s)
  ++ (_threadpool s ≫= task_value)
  ++ (_result_queue s ≫= message_value).

(** The result processor is past its last check. *)
Definition winding_down (s : pool) : Prop :=
  pc (_process_results_thread s) = CancelTimeout
  ∨ pc (_process_results_thread s) = SetStopped
  ∨ pc (_process_results_thread s) = Exited.

(** What holds of the pool of the round trip in every state of a calm run. *)
Record invariant (N : nat) (target : Z) (s : pool) : Prop := {
  inv_target : _target_successes s = target;
  inv_error : _unexpected_error s = SetOnce.new;
  inv_failures : _failures s = ∅;
  inv_factory : AllAtOnceFactory.values (_value_factory s) = one_to N;
  inv_fresh :
    AllAtOnceFactory._produced (_value_factory s) = false →
    _produce_values_thread s = PRead
    ∨ ∃ n, _produce_values_thread s = PCall n;
  inv_producer : _produce_values_thread s ≠ PCancel;
  inv_bailer :
    match _bail_on_timeout_thread s with
    | Waiting => True
    | Fire => False
    | SetCancel | Bailed => _cancel_event s = true
    end;
  inv_batch : ∀ v, v ∈ batch_of (_produce_values_thread s) → v ∈ one_to N;
  inv_tasks : Forall (fine_task N) (_threadpool s);
  inv_queue : Forall (fine_message N) (_result_queue s);
  inv_successes : _successes s ⊆ all_successes N;
  inv_located :
    AllAtOnceFactory._produced (_value_factory s) = true →
    ∀ v, v ∈ one_to N → v ∈ in_flight s ∨ v ∈ dom (_successes s);
  inv_cancel :
    _cancel_event s = true →
    pc (_process_results_thread s) = SetStopped
    ∨ pc (_process_results_thread s) = Exited;
  inv_drained :
    winding_down s →
    producer_stopped (_process_results_thread s) = true
    ∧ _finished_tasks s = _started_tasks s;
  inv_reached :
    success_event_reached (_process_results_thread s) = true →
    SetOnce.is_set (_target_value s) = true;
  inv_enough :
    (1 ≤ target ≤ Z.of_nat (size (_successes s)))%Z →
    SetOnce.is_set (_target_value s) = true;
  inv_exited :
    pc (_process_results_thread s) = Exited →
    SetOnce.is_set (_target_value s) = true;
  inv_latch :
    _target_value s = SetOnce.new
    ∨ (∃ m, _target_value s = SetOnce.mk (Some (Snapshot m)) true
            ∧ Z.of_nat (size m) = target ∧ (1 ≤ target)%Z
            ∧ m ⊆ all_successes N)
    ∨ (_target_value s = SetOnce.mk (Some (Marker PRODUCER_STOPPED)) true
       ∧ pc (_process_results_thread s) = Exited
       ∧ ¬ (1 ≤ target ≤ Z.of_nat N)%Z)
}.

(** A bound on the number of steps the threads can still take: every step
    of a thread makes it smaller. *)
Definition producer_weight (f : AllAtOnceFactory.t Z) (p : @producer Z)
    : nat :=
  match p with
  | PRead =>
      if AllAtOnceFactory._produced f then 5
      else 9 + 6 * length (AllAtOnceFactory.values f)
  | PCall _ =>
      if AllAtOnceFactory._produced f then 4
      else 8 + 6 * length (AllAtOnceFactory.values f)
  | PSubmit batch => 7 + 6 * length batch
  | PSleep => 6
  | PCancel => 4
  | PPost => 3
  | PDone => 0
  end.

Definition task_weight (t : @task Z Z) : nat :=
  match t with
  | Queued _ => 5
  | Working _ => 4
  | Posting _ => 3
  end.

Definition processor_weight (l : processor_pc) : nat :=
  match l with
  | Check => 4
  | Dequeue => 3
  | CancelTimeout => 2
  | SetStopped => 1
  | Exited => 0
  end.

Definition bailer_weight (b : bailer) : nat :=
  match b with
  | Waiting => 3
  | Fire => 2
  | SetCancel => 1
  | Bailed => 0
  end.

Definition weight (s : pool) : nat :=
  producer_weight (_value_factory s) (_produce_values_thread s)
  + sum_list_with task_weight (_threadpool s)
  + 2 * length (_result_queue s)
  + processor_weight (pc (_process_results_thread s))
  + bailer_weight (_bail_on_timeout_thread s).

End RoundTrip.

(** * Properties *)

(** ** The once-settable latch *)

Section SetOnceFacts.

Context {T : Type}.

Implicit Types (l : SetOnce.t T) (v w : T).

Lemma set_unsettled l v :
  SetOnce.is_set l = false → SetOnce.set v l = SetOnce.mk (Some v) true.
Proof. unfold SetOnce.set, SetOnce.is_set. by intros ->. Qed.

Lemma set_settled l w : SetOnce.is_set l = true → SetOnce.set w l = l.
Proof. unfold SetOnce.set, SetOnce.is_set. by intros ->. Qed.

Lemma is_set_set l v : SetOnce.is_set (SetOnce.set v l) = true.
Proof. destruct l as [x []]; reflexivity. Qed.

(** Any number of further [set]s leaves a settled latch as it is. *)
Lemma sets_settled l (ws : list T) :
  SetOnce.is_set l = true → foldl (λ l w, SetOnce.set w l) l ws = l.
Proof.
  intros Hl. induction ws as [|w ws IH]; simpl; [done|].
  by rewrite set_settled.
Qed.

(** C9: after [set(v)] on an unsettled latch [is_set()] is true and [get()]
    returns [v] without blocking; every later [set(w)] leaves the stored
    value and the flag as they are, so that [get()] still returns [v]. *)
Theorem set_once_first_set_wins l v (ws : list T) :
  SetOnce.is_set l = false →
  let l1 := SetOnce.set v l in
  let l2 := foldl (λ l w, SetOnce.set w l) l1 ws in
  SetOnce.is_set l1 = true
  ∧ SetOnce.get l1 = Returns (Some v)
  ∧ (∀ w, SetOnce.set w l1 = l1)
  ∧ l2 = l1
  ∧ SetOnce.is_set l2 = true
  ∧ SetOnce.get l2 = Returns (Some v).
Proof.
  intros Hl l1 l2.
  assert (Hl1 : l1 = SetOnce.mk (Some v) true) by by apply set_unsettled.
  assert (Hl2 : l2 = l1).
  { apply sets_settled. by rewrite Hl1. }
  rewrite Hl2, Hl1. repeat split.
Qed.

(** [get_and_clear] never waits: it returns whatever the slot holds, which is
    [None] on a latch that is not settled, and leaves the slot empty and the
    flag cleared.  On a latch settled by [set(v)], whatever [set]s followed,
    it returns [v], and the latch it leaves takes the next [set]. *)
Lemma get_and_clear_settled l v (ws : list T) w :
  SetOnce.is_set l = false →
  let l2 := foldl (λ l w, SetOnce.set w l) (SetOnce.set v l) ws in
  SetOnce.get_and_clear l2 = (Returns (Some v), SetOnce.new)
  ∧ SetOnce.get (SetOnce.set w (SetOnce.get_and_clear l2).2)
    = Returns (Some w).
Proof.
  intros Hl l2. unfold l2.
  rewrite (sets_settled _ ws (is_set_set l v)), (set_unsettled l v Hl).
  done.
Qed.

(** C3, as the code has it: [get_and_clear()] returns at once in every state
    of the latch, with the content of the value slot, and leaves the slot
    empty and the settled flag cleared; the value is the one stored by the
    first [set()] when the latch is settled, and [None] when it is not. *)
Theorem get_and_clear_never_blocks l :
  ∃ r l',
    SetOnce.get_and_clear l = (Returns r, l')
    ∧ r = SetOnce._value l
    ∧ SetOnce._value l' = None
    ∧ SetOnce.is_set l' = false
    ∧ (∀ l0 v (ws : list T),
         SetOnce.is_set l0 = false →
         l = foldl (λ l w, SetOnce.set w l) (SetOnce.set v l0) ws →
         r = Some v).
Proof.
  exists (SetOnce._value l), SetOnce.new. repeat split.
  intros l0 v ws Hl0 ->.
  rewrite (sets_settled _ ws (is_set_set l0 v)), (set_unsettled l0 v Hl0).
  done.
Qed.

End SetOnceFacts.

(** C3 as stated fails: on a latch that was never set the call returns, with
    [None], where [get()] blocks. *)
Lemma get_and_clear_returns_on_unset_latch :
  ¬ (∀ l : SetOnce.t Z,
       SetOnce.is_set l = false → (SetOnce.get_and_clear l).1 = Blocks).
Proof. intros Hc. specialize (Hc SetOnce.new eq_refl). discriminate Hc. Qed.

(** An instance of [set_once_first_set_wins]. *)
Lemma set_once_first_set_wins_witness :
  SetOnce.is_set (SetOnce.new : SetOnce.t Z) = false
  ∧ SetOnce.get (foldl (λ l w, SetOnce.set w l)
                   (SetOnce.set 7%Z SetOnce.new) [8%Z; 9%Z])
    = Returns (Some 7%Z).
Proof.
  split; [reflexivity|].
  apply (set_once_first_set_wins SetOnce.new 7%Z [8%Z; 9%Z]). reflexivity.
Defined.

(** ** Runs of the pool *)

(** Case analysis on one step: every statement of every thread. *)
Ltac step_unfold Hs :=
  match type of Hs with
  | WorkerPool.step _ _ _ _ ?s = Some _ =>
      destruct s;
      cbv [WorkerPool.step WorkerPool.produce WorkerPool.work
           WorkerPool.process WorkerPool.timer_expires WorkerPool.bail
           WorkerPool.completed WorkerPool.join
           WorkerPool.block_until_target_successes WorkerPool.record
           WorkerPool.goto WorkerPool.cancel] in Hs;
      simpl in *; repeat case_match; simplify_eq; simpl in *
  end.

Ltac step_cases Hs :=
  match type of Hs with
  | WorkerPool.step _ _ _ ?a _ = Some _ => destruct a
  end;
  step_unfold Hs.

(** Folds the list monad's bind back after [simpl]. *)
Ltac fold_bind :=
  repeat match goal with
  | |- context [list_bind ?A ?B ?f ?l] =>
      change (list_bind A B f l) with (l ≫= f)
  end.

Section PoolFacts.

Context {V R E W F : Type} `{Countable V}.
Variable str : E → string.
Variable worker : W → V → W * (R + @WorkerPool.raised E).
Variable value_factory :
  F → nat → F * (option (list V) + @WorkerPool.raised E).

Import WorkerPool.

Local Abbreviation step := (WorkerPool.step str worker value_factory).
Local Abbreviation run := (WorkerPool.run str worker value_factory).
Local Abbreviation reachable :=
  (WorkerPool.reachable str worker value_factory).
Local Abbreviation emitted := (WorkerPool.emitted str worker value_factory).
Local Abbreviation pool := (@WorkerPool.t V R E W F _ _).

Implicit Types (s : pool) (a : action) (schedule : list action).

Lemma run_app schedule1 schedule2 s :
  run (schedule1 ++ schedule2) s = run schedule1 s ≫= run schedule2.
Proof.
  revert s. induction schedule1 as [|a l IH]; intros s; simpl; [done|].
  destruct (step a s); simpl; auto.
Qed.

Lemma run_snoc schedule a s s1 s2 :
  run schedule s = Some s1 → step a s1 = Some s2 →
  run (schedule ++ [a]) s = Some s2.
Proof. intros H1 H2. rewrite run_app, H1. simpl. by rewrite H2. Qed.

Lemma reachable_refl s : reachable s s.
Proof. by exists []. Qed.

Lemma reachable_step s0 s a s' :
  reachable s0 s → step a s = Some s' → reachable s0 s'.
Proof. intros [l Hl] Hs. exists (l ++ [a]). by eapply run_snoc. Qed.

(** Induction over the states a run goes through. *)
Lemma run_ind (P : pool → Prop) s0 :
  P s0 →
  (∀ a s s', reachable s0 s → P s → step a s = Some s' → P s') →
  ∀ schedule s, run schedule s0 = Some s → P s.
Proof.
  intros H0 Hstep schedule.
  induction schedule as [|a l IH] using rev_ind; intros s Hrun.
  - simpl in Hrun. by simplify_eq.
  - rewrite run_app in Hrun.
    destruct (run l s0) as [s1|] eqn:E1; [|done]. simpl in Hrun.
    destruct (step a s1) as [s2|] eqn:E2; [|done]. simplify_eq.
    eapply Hstep; [by exists l | by apply IH | done].
Qed.

Lemma reachable_ind (P : pool → Prop) s0 :
  P s0 →
  (∀ a s s', reachable s0 s → P s → step a s = Some s' → P s') →
  ∀ s, reachable s0 s → P s.
Proof. intros H0 Hstep s [l Hl]. by eapply run_ind. Qed.

(** *** The two counters *)

Lemma outcomes_app (q1 q2 : list (@message V R)) :
  outcomes (q1 ++ q2) = outcomes q1 + outcomes q2.
Proof. induction q1 as [|[|[]]]; simpl; lia. Qed.

Lemma accounted_init w f target : accounted (init w f target : pool).
Proof. split; simpl; [done|]. unfold sentinel_observed. set_solver. Qed.

Lemma accounted_step a s s' : accounted s → step a s = Some s' → accounted s'.
Proof.
  intros [Hc Hp] Hs. unfold accounted, sentinel_observed in *.
  step_cases Hs.
  all: try (split;
    [ rewrite ?outcomes_app, ?length_app, ?length_insert; simpl; lia
    | set_solver ]).
  split; [|set_solver].
  rewrite outcomes_app, length_delete by eauto. simpl.
  assert (i < length _threadpool0) by (eapply lookup_lt_Some; eauto). lia.
Qed.

Lemma accounted_reachable w f target s :
  reachable (init w f target) s → accounted s.
Proof.
  apply reachable_ind; [apply accounted_init|].
  intros a s1 s2 _. apply accounted_step.
Qed.


(** *** The two dictionaries *)

Local Abbreviation emits := (WorkerPool.emits value_factory).

Lemma size_insert_le {A} (k : V) (x : A) (m : gmap V A) :
  size m ≤ size (<[k:=x]> m).
Proof. rewrite map_size_insert. destruct (m !! k); simpl; lia. Qed.

Lemma size_insert_pos {A} (k : V) (x : A) (m : gmap V A) :
  1 ≤ size (<[k:=x]> m).
Proof. rewrite map_size_insert. destruct (m !! k) eqn:Hk; simpl; [|lia].
  assert (size m ≠ 0); [|lia]. intros H0%map_size_empty_inv. by subst.
Qed.

(** No step removes a key from either dictionary. *)
Lemma sizes_step a s s' :
  step a s = Some s' →
  size (_successes s) ≤ size (_successes s')
  ∧ size (_failures s) ≤ size (_failures s').
Proof.
  intros Hs. step_cases Hs; auto using size_insert_le.
Qed.

Lemma sizes_run schedule s s' :
  run schedule s = Some s' →
  size (_successes s) ≤ size (_successes s')
  ∧ size (_failures s) ≤ size (_failures s').
Proof.
  revert s. induction schedule as [|a l IH]; intros s Hr; simpl in Hr.
  - by simplify_eq.
  - destruct (step a s) as [s1|] eqn:Hs; [|done].
    destruct (sizes_step _ _ _ Hs), (IH _ Hr). lia.
Qed.

Lemma elements_dom_insert {A} (k : V) (x : A) (m : gmap V A) :
  elements (dom (<[k:=x]> m)) ⊆+ k :: elements (dom m).
Proof.
  rewrite dom_insert_L. destruct (decide (k ∈ dom m)) as [Hk|Hk].
  - replace ({[k]} ∪ dom m) with (dom m) by set_solver.
    by apply submseteq_cons.
  - by rewrite elements_union_singleton.
Qed.

Lemma bind_lookup_delete {A B} (f : A → list B) (l : list A) i x :
  l !! i = Some x → l ≫= f ≡ₚ f x ++ (delete i l ≫= f).
Proof.
  intros Hi. rewrite <-(take_drop_middle l i x Hi) at 1.
  rewrite delete_take_drop, !bind_app, bind_cons. solve_Permutation.
Qed.

Lemma bind_insert_delete {A B} (f : A → list B) (l : list A) i x y :
  l !! i = Some x → <[i:=y]> l ≫= f ≡ₚ f y ++ (delete i l ≫= f).
Proof.
  intros Hi. rewrite insert_take_drop by (by eapply lookup_lt_Some).
  rewrite delete_take_drop, !bind_app, bind_cons. solve_Permutation.
Qed.

(** A step holds no value that was not held before or drawn from the
    factory by this step, counting repetitions. *)
Lemma held_step a s s' :
  step a s = Some s' → held s' ⊆+ emits a s ++ held s.
Proof.
  intros Hs. unfold held, WorkerPool.emits.
  step_cases Hs.
  all: rewrite ?bind_app, ?app_nil_r; simpl; rewrite ?app_nil_r; fold_bind.
  all: try done.
  all: try solve_submseteq.
  all: try (erewrite bind_insert_delete by eauto).
  all: try (erewrite (bind_lookup_delete _ _threadpool0) by eauto).
  all: simpl; try solve_submseteq.
  all: try (destruct r; simpl; solve_submseteq).
  all: (etrans;
    [ first [ do 3 apply submseteq_skips_l; apply submseteq_skips_r;
              apply elements_dom_insert
            | do 4 apply submseteq_skips_l; apply elements_dom_insert ]
    | solve_submseteq ]).
Qed.

Lemma held_run schedule s s' :
  run schedule s = Some s' → held s' ⊆+ emitted schedule s ++ held s.
Proof.
  revert s. induction schedule as [|a l IH]; intros s Hr; simpl in *.
  - by simplify_eq.
  - destruct (step a s) as [s1|] eqn:Hs; [|done].
    etrans; [exact (IH _ Hr)|].
    etrans; [apply submseteq_skips_l, (held_step _ _ _ Hs)|].
    solve_submseteq.
Qed.

Lemma submseteq_NoDup {A} (l k : list A) : l ⊆+ k → NoDup k → NoDup l.
Proof.
  intros (k' & Hp & Hsub)%submseteq_sublist_r Hk.
  rewrite Hp. by eapply sublist_NoDup.
Qed.


(** *** The terminal latch *)

Local Abbreviation block_until_target_successes :=
  (WorkerPool.block_until_target_successes str).
Local Abbreviation join := (WorkerPool.join str).

Lemma target_successes_step a s s' :
  step a s = Some s' → _target_successes s' = _target_successes s.
Proof. intros Hs. by step_cases Hs. Qed.

Lemma target_successes_reachable w f target s :
  reachable (init w f target) s → _target_successes s = target.
Proof.
  apply (reachable_ind (λ s, _target_successes s = target)); [done|].
  intros a s1 s2 _ <- Hs. by eapply target_successes_step.
Qed.

(** The only step that settles the latch with a snapshot is the handling of
    a [Success] that brings the size of [_successes] to the target. *)
Lemma snapshot_step a s s' m :
  step a s = Some s' →
  ¬ settled_with (_target_value s) (Snapshot m) →
  settled_with (_target_value s') (Snapshot m) →
  a = Process
  ∧ m = _successes s'
  ∧ (∃ value result, _successes s' = <[value:=result]> (_successes s))
  ∧ Z.of_nat (size m) = _target_successes s
  ∧ 1 ≤ size m.
Proof.
  intros Hs Hn [Hset Hval]. unfold settled_with in Hn.
  step_cases Hs; try (exfalso; by apply Hn).
  all: unfold SetOnce.set, SetOnce.is_set in *.
  all: destruct SetOnce._set_event eqn:?; simpl in *;
    try (exfalso; by apply Hn); simplify_eq.
  all: match goal with
       | Hc : _ && _ = true |- _ =>
           apply andb_true_iff in Hc as [_ Hc%Z.eqb_eq]
       end.
  all: repeat split; eauto using size_insert_pos.
Qed.

(** With a target that is not positive the latch is unset or holds one of
    the two markers. *)
Lemma markers_only_step a s s' :
  (_target_successes s ≤ 0)%Z →
  markers_only s → step a s = Some s' → markers_only s'.
Proof.
  intros Ht Hm Hs. unfold markers_only in *.
  step_cases Hs; try done.
  all: try (destruct Hm as [->|[c ->]]; simpl; eauto; fail).
  all: match goal with
       | Hc : _ && _ = true |- _ =>
           apply andb_true_iff in Hc as [_ Hc%Z.eqb_eq]
       end.
  all: match goal with
       | Hc : Z.of_nat (size (<[?k:=?x]> ?m)) = _ |- _ =>
           pose proof (size_insert_pos k x m); lia
       end.
Qed.

Lemma markers_only_reachable w f target s :
  (target ≤ 0)%Z → reachable (init w f target) s → markers_only s.
Proof.
  intros Ht Hr.
  cut (_target_successes s = target ∧ markers_only s); [by intros []|].
  revert s Hr. apply reachable_ind; [split; [done|by left]|].
  intros a s1 s2 _ [<- Hm] Hs. split.
  - by eapply target_successes_step.
  - by eapply markers_only_step.
Qed.

(** C10: the constructor stores [target_successes] as it is given; the latch
    is settled with a snapshot only by the handling of a [Success] after
    which the size of the success dictionary, at least 1, equals the target;
    so with a target that is not positive the latch is never settled with a
    snapshot, and [block_until_target_successes()] never returns a
    dictionary. *)
Theorem snapshot_only_at_exact_target w f target s :
  reachable (init w f target) s →
  _target_successes s = target
  ∧ (∀ a s' m,
       step a s = Some s' →
       ¬ settled_with (_target_value s) (Snapshot m) →
       settled_with (_target_value s') (Snapshot m) →
       a = Process
       ∧ m = get_successes s'
       ∧ (∃ value result,
            _successes s' = <[value:=result]> (_successes s))
       ∧ Z.of_nat (size m) = target
       ∧ 1 ≤ size m)
  ∧ ((target ≤ 0)%Z →
     (∀ m, ¬ settled_with (_target_value s) (Snapshot m))
     ∧ (∀ r, (block_until_target_successes s).1 ≠ Returns r)).
Proof.
  intros Hr. pose proof (target_successes_reachable _ _ _ _ Hr) as Ht.
  split; [done|]. split.
  - intros a s' m Hs Hn Hm. rewrite <-Ht. by eapply snapshot_step.
  - intros Hle. pose proof (markers_only_reachable _ _ _ _ Hle Hr) as Hm.
    split.
    + intros m [_ Hv]. destruct Hm as [Hm|[c Hm]]; by rewrite Hm in Hv.
    + intros r. unfold WorkerPool.block_until_target_successes.
      destruct (SetOnce.is_set (_unexpected_error s)); [done|].
      destruct Hm as [->|[[] ->]]; done.
Qed.


(** Called while an error of the producer is latched, the method raises it
    whatever the terminal latch holds, and clears the error latch. *)
Lemma block_until_raises_the_error s :
  SetOnce.is_set (_unexpected_error s) = true →
  block_until_target_successes s
  = (Raises (unexpected str (SetOnce._value (_unexpected_error s))),
     set_unexpected_error SetOnce.new s).
Proof.
  intros He. unfold WorkerPool.block_until_target_successes.
  by rewrite He.
Qed.

(** After [block_until_target_successes()] has raised the error, [join()]
    does not raise. *)
Lemma join_after_block_until s :
  SetOnce.is_set (_unexpected_error s) = true →
  ∀ e, (join (block_until_target_successes s).2).1 ≠ Raises e.
Proof.
  intros He e. rewrite block_until_raises_the_error by done.
  unfold WorkerPool.join. simpl.
  destruct (_stopped s); [done|]. by destruct threads_finished.
Qed.

(** A [join()] after a [join()] that got past the threads returns at once. *)
Lemma join_after_join s :
  (join s).1 ≠ Blocks → join (join s).2 = (Returns tt, (join s).2).
Proof.
  unfold WorkerPool.join. destruct (_stopped s) eqn:Hst.
  - simpl. by rewrite Hst.
  - destruct (threads_finished s); [|done]. intros _.
    destruct (SetOnce.is_set _); [destruct (SetOnce.get _)|]; done.
Qed.

(** *** The wrapper of the worker *)

Local Abbreviation _worker_wrapper := (WorkerPool._worker_wrapper str worker).

Lemma list_delete_insert {A} (l : list A) i x :
  delete i (<[i:=x]> l) = delete i l.
Proof.
  revert i. induction l as [|y l IH]; intros [|i]; simpl; f_equal; auto.
Qed.

Lemma worker_wrapper_eq cancel_event w value :
  _worker_wrapper cancel_event w value
  = (if cancel_event then w else (worker w value).1,
     [posted_by str worker cancel_event w value], inl tt).
Proof.
  unfold WorkerPool._worker_wrapper, try_body, _sleep, posted_by.
  destruct cancel_event; [done|].
  by destruct (worker w value) as [w' [result|[|e]]].
Qed.

(** The steps of a task of the thread pool, taken one after the other, are
    one call of the wrapper. *)
Lemma task_runs_the_wrapper s i value :
  _threadpool s !! i = Some (Queued value) →
  ∃ n s',
    run (replicate n (Work i)) s = Some s'
    ∧ _result_queue s'
      = _result_queue s
        ++ [Posted (posted_by str worker (_cancel_event s) (_worker s) value)]
    ∧ _threadpool s' = delete i (_threadpool s)
    ∧ _worker s'
      = (_worker_wrapper (_cancel_event s) (_worker s) value).1.1.
Proof.
  intros Hi. rewrite worker_wrapper_eq. unfold posted_by.
  assert (Hlt : i < length (_threadpool s)) by by eapply lookup_lt_Some.
  destruct s; simpl in *. destruct _cancel_event0 eqn:Hc.
  - exists 2. eexists. simpl. unfold work; simpl. rewrite Hi; simpl.
    rewrite list_lookup_insert_eq by done. simpl.
    split; [done|]. simpl. repeat split.
    by rewrite list_delete_insert.
  - destruct (worker _worker0 value) as [w' r] eqn:Hw.
    destruct r as [result|[|e]]; simpl.
    all: exists 3; eexists; simpl; unfold work; simpl; rewrite Hi; simpl.
    all: rewrite list_lookup_insert_eq by done; simpl; rewrite Hw; simpl.
    all: rewrite list_lookup_insert_eq by (by rewrite length_insert); simpl.
    all: split; [reflexivity|]; simpl; by rewrite !list_delete_insert.
Qed.



(** *** No deadlock *)

Lemma alive_init w f target : alive (init w f target : pool).
Proof. unfold alive, sentinel_observed. simpl. naive_solver. Qed.

Lemma alive_step a s s' :
  accounted s → alive s → step a s = Some s' → alive s'.
Proof.
  intros [Hacc Hsent] (Hp & Hd & Hc) Hs.
  unfold alive, sentinel_observed in *.
  step_cases Hs.
  all: repeat split; simpl; try done.
  all: try (intros; simplify_eq; auto; fail).
  all: try (intros [?|?]; discriminate).
  all: try (intros _ Hst; specialize (Hsent (or_intror Hst)); discriminate).
  all: try (intros Hx; specialize (Hp Hx);
            rewrite ?elem_of_app, ?elem_of_cons in *; naive_solver).
  all: try (intros _; left; apply elem_of_app; right; by left).
  all: match goal with
       | Hb : _ && _ = false |- _ =>
           apply andb_false_iff in Hb as [Hb|Hb%Nat.eqb_neq]
       end.
  all: intros _ Hst; congruence.
Qed.

Lemma alive_reachable w f target s :
  reachable (init w f target) s → alive s.
Proof.
  apply reachable_ind; [apply alive_init|].
  intros a s1 s2 Hr. apply alive_step. by eapply accounted_reachable.
Qed.

(** As long as one of the three service threads has not finished, one of
    the threads of the pool can take a step, the timeout not firing. *)
Lemma no_deadlock w f target s :
  reachable (init w f target) s →
  threads_finished s = false →
  ∃ a s', of_thread a = true ∧ step a s = Some s'.
Proof.
  intros Hr Hf.
  destruct (accounted_reachable _ _ _ _ Hr) as [Hacc Hsent].
  destruct (alive_reachable _ _ _ _ Hr) as (Hp & Hd & Hc).
  unfold threads_finished, sentinel_observed in *.
  destruct s; simpl in *.
  destruct _produce_values_thread0 as [ | n | batch | | | | ].
  1-6: exists Produce; unfold WorkerPool.step, produce; simpl.
  1-6: try (eexists; split; [done|reflexivity]).
  { destruct (value_factory _ _) as (? & r); destruct r as [ o | x ];
      [ destruct o as [ b | ]; [ destruct b | ] | destruct x ];
      eexists; split; done. }
  { destruct batch; eexists; split; done. }
  { destruct _cancel_event0; eexists; split; done. }
  destruct _threadpool0 as [ | t tp ].
  2: { exists (Work 0). unfold WorkerPool.step, work. simpl.
       destruct t; [ | destruct (worker _ _) | ]; eexists; split; done. }
  destruct _process_results_thread0 as [ stopped reached l ];
    destruct l; simpl in *.
  - destruct _result_queue0 as [ | m q ].
    + destruct (Hp eq_refl) as [Hin | ->]; [by apply elem_of_nil in Hin|].
      simpl in Hacc. exfalso. apply Hd; [done|done|lia].
    + exists Process. unfold WorkerPool.step, process. simpl.
      destruct m as [ o | c ]; [ | destruct c ]; eexists; split; done.
  - exists Process. unfold WorkerPool.step, process. simpl.
    destruct (stopped && _); eexists; split; done.
  - exists Process. eexists. split; done.
  - exists Process. eexists. split; done.
  - rewrite Hc in * by auto.
    exists Bail. unfold WorkerPool.step, bail. simpl.
    destruct _bail_on_timeout_thread0; try done; eexists; split; done.
Qed.

(** *** What the methods and the threads never undo *)

Lemma cancel_event_step a s s' :
  step a s = Some s' → _cancel_event s = true → _cancel_event s' = true.
Proof. intros Hs Hc. by step_cases Hs. Qed.

Lemma target_value_step a s s' :
  step a s = Some s' →
  SetOnce.is_set (_target_value s) = true →
  _target_value s' = _target_value s.
Proof.
  intros Hs Hl. unfold SetOnce.is_set in Hl.
  step_cases Hs; try done.
  all: unfold SetOnce.set; simpl; by rewrite Hl.
Qed.

(** X1: nothing clears the cancel event: once it is set, by [cancel()] or by
    one of the threads, it is set in every later state of the run; and a
    second [cancel()] changes nothing. *)
Theorem cancel_event_stays_set schedule s s' :
  run schedule s = Some s' →
  _cancel_event s = true →
  _cancel_event s' = true ∧ cancel (cancel s') = cancel s'.
Proof.
  intros Hr Hc. split; [|done].
  revert s Hr Hc. induction schedule as [|a l IH]; intros s Hr Hc; simpl in Hr.
  - by simplify_eq.
  - destruct (step a s) as [s1|] eqn:Hs; [|done].
    eauto using cancel_event_step.
Qed.

(** X2: the terminal latch is settled once: whatever settles it first, no
    later step of a thread or call of the caller changes it, so that
    [block_until_target_successes()], called again while no error is
    latched, gives the same result. *)
Theorem terminal_latch_settled_once schedule s s' :
  run schedule s = Some s' →
  SetOnce.is_set (_target_value s) = true →
  _target_value s' = _target_value s
  ∧ (SetOnce.is_set (_unexpected_error s) = false →
     SetOnce.is_set (_unexpected_error s') = false →
     (block_until_target_successes s').1
     = (block_until_target_successes s).1).
Proof.
  intros Hr Hl.
  assert (Ht : _target_value s' = _target_value s).
  { revert s Hr Hl.
    induction schedule as [|a l IH]; intros s Hr Hl; simpl in Hr.
    - by simplify_eq.
    - destruct (step a s) as [s1|] eqn:Hs; [|done].
      pose proof (target_value_step _ _ _ Hs Hl) as H1.
      rewrite <-H1. apply IH; [done|]. by rewrite H1. }
  split; [done|]. intros He He'.
  unfold WorkerPool.block_until_target_successes.
  rewrite He, He', Ht.
  destruct (SetOnce.get _) as [ | r | e ]; [done| |done].
  destruct r as [ t | ]; [|done]. destruct t as [ m | c ]; [done|].
  by destruct c.
Qed.
(** *** What the threads keep in order *)

Lemma sentinels_app (q1 q2 : list (@message V R)) :
  sentinels (q1 ++ q2) = sentinels q1 + sentinels q2.
Proof. induction q1 as [ | m q1 IH ]; [done|]. destruct m as [ o | c ];
  [done|]. destruct c; simpl; lia. Qed.

Lemma length_outcomes_sentinels (q : list (@message V R)) :
  length q = outcomes q + sentinels q.
Proof. induction q as [ | m q IH ]; [done|]. destruct m as [ o | c ];
  simpl; [lia|]. destruct c; simpl; lia. Qed.

Lemma well_formed_new {T} : well_formed (SetOnce.new : SetOnce.t T).
Proof. split; [done|]. by intros [? ?]. Qed.

Lemma well_formed_set {T} (x : T) l :
  well_formed l → well_formed (SetOnce.set x l).
Proof.
  unfold well_formed, SetOnce.set, SetOnce.is_set.
  destruct (SetOnce._set_event l) eqn:Hl; simpl; [by rewrite Hl|].
  intros _. split; eauto.
Qed.

Lemma tidy_init w f target : tidy (init w f target : pool).
Proof.
  unfold tidy, sentinel_observed. simpl.
  repeat split; try done; try (by intros [? ?]); naive_solver.
Qed.

Lemma tidy_step a s s' :
  accounted s → tidy s → step a s = Some s' → tidy s'.
Proof.
  intros Hacc Htidy Hs.
  step_cases Hs.
  all: destruct Hacc as [Hacc Hsent];
    destruct Htidy as (Ht & He & Hb & Herr & Hone & Hdr & Hex).
  all: unfold tidy, sentinel_observed in *; simpl in *.
  all: repeat match goal with
       | |- _ ∧ _ => split
       end; simpl; try done.
  all: try (apply well_formed_set; done).
  all: try apply well_formed_new.
  all: rewrite ?sentinels_app; simpl; try lia.
  all: try (intros _; apply is_set_set).
  all: try (intros [?|[?|?]]; discriminate).
  all: try (intros Hx; destruct (Herr Hx) as [? ?]; split; auto; done).
  all: try (intros Hx; destruct (Hdr Hx) as [Hst _];
            specialize (Hsent (or_intror Hst)); discriminate).
  all: try (intros _; apply Hdr; auto; fail).
  all: try (destruct (producer_stopped _), (finished_producing _);
            simpl in *; lia).
  intros _.
  match goal with
  | Hc : _ && _ = true |- _ => apply andb_true_iff in Hc as [? ?%Nat.eqb_eq]
  end.
  done.
Qed.

Lemma tidy_reachable w f target s :
  reachable (init w f target) s → tidy s.
Proof.
  apply reachable_ind; [apply tidy_init|].
  intros a s1 s2 Hr. apply tidy_step. by eapply accounted_reachable.
Qed.

(** Once the result processor has ended, nothing is left: the marker of the
    producer has been seen, no other is on its way, the queue and the thread
    pool are empty, every started task is finished, the cancel event is set
    and the terminal latch is settled. *)
Lemma drained w f target s :
  reachable (init w f target) s →
  pc (_process_results_thread s) = Exited →
  _produce_values_thread s = PDone
  ∧ _result_queue s = []
  ∧ _threadpool s = []
  ∧ _finished_tasks s = _started_tasks s
  ∧ _cancel_event s = true
  ∧ SetOnce.is_set (_target_value s) = true.
Proof.
  intros Hr Hpc.
  destruct (accounted_reachable _ _ _ _ Hr) as [Hacc Hsent].
  destruct (alive_reachable _ _ _ _ Hr) as (_ & _ & Hc).
  destruct (tidy_reachable _ _ _ _ Hr) as (_ & _ & _ & _ & Hone & Hdr & Hex).
  destruct Hdr as [Hst Hfs]; [auto|].
  unfold sentinel_observed in *.
  pose proof (Hsent (or_intror Hst)) as Hp.
  rewrite Hp, Hst in *. simpl in *.
  pose proof (length_outcomes_sentinels (_result_queue s)) as Hlen.
  repeat split; auto.
  - apply length_zero_iff_nil. lia.
  - apply length_zero_iff_nil. lia.
Qed.
(** X3: when the result processor has ended, the pool is drained: the
    producer has finished, the result queue and the thread pool are empty,
    every started task is finished, the cancel event is set and the terminal
    latch is settled. *)
Theorem processor_ends_with_the_pool_drained w f target s :
  reachable (init w f target) s →
  pc (_process_results_thread s) = Exited →
  _produce_values_thread s = PDone
  ∧ _result_queue s = []
  ∧ _threadpool s = []
  ∧ _finished_tasks s = _started_tasks s
  ∧ _cancel_event s = true
  ∧ SetOnce.is_set (_target_value s) = true.
Proof. apply drained. Qed.


(** X5: while an error of the producer is latched, the producer is past its
    loop, and once past its own [cancel()] the cancel event is set; from
    then on the factory is never called again. *)
Theorem producer_error_ends_the_production w f target s schedule s' :
  reachable (init w f target) s →
  SetOnce.is_set (_unexpected_error s) = true →
  run schedule s = Some s' →
  out_of_loop (_produce_values_thread s) = true
  ∧ (_produce_values_thread s ≠ PCancel → _cancel_event s = true)
  ∧ factory_calls str worker value_factory schedule s = 0
  ∧ _value_factory s' = _value_factory s.
Proof.
  intros Hr He Hrun.
  destruct (tidy_reachable _ _ _ _ Hr) as (_ & _ & _ & Herr & _).
  destruct (Herr He) as [Hout Hc]. split; [done|]. split; [done|].
  clear Hr He Herr Hc. revert s Hrun Hout.
  induction schedule as [|a l IH]; intros s Hrun Hout; simpl in *.
  - by simplify_eq.
  - destruct (step a s) as [s1|] eqn:Hs; [|done].
    assert (out_of_loop (_produce_values_thread s1) = true
            ∧ _value_factory s1 = _value_factory s
            ∧ match a, _produce_values_thread s with
              | Produce, PCall _ => 1
              | _, _ => 0
              end = 0) as (Hout1 & Hf1 & ->).
    { clear IH Hrun. step_cases Hs; try done.
      all: by destruct _produce_values_thread0. }
    destruct (IH _ Hrun Hout1) as [-> ->]. done.
Qed.


(** X7: the producer puts [PRODUCER_STOPPED] on the queue exactly once, as
    its last statement: counting the markers on the queue and the one the
    result processor has taken off, there is none before the producer has
    finished and exactly one after. *)
Theorem producer_leaves_one_marker w f target s :
  reachable (init w f target) s →
  sentinels (_result_queue s)
  + (if producer_stopped (_process_results_thread s) then 1 else 0)
  = (if finished_producing (_produce_values_thread s) then 1 else 0).
Proof.
  intros Hr. by destruct (tidy_reachable _ _ _ _ Hr) as (_ & _ & _ & _ & ? & _).
Qed.

(** *** The timeout *)

Lemma fired_step a s s' :
  step a s = Some s' → a ≠ TimerExpires →
  settled_with (_target_value s') (Marker TIMEOUT_TRIGGERED)
  ∨ _bail_on_timeout_thread s' = Fire →
  settled_with (_target_value s) (Marker TIMEOUT_TRIGGERED)
  ∨ _bail_on_timeout_thread s = Fire.
Proof.
  intros Hs Ha. unfold settled_with, SetOnce.is_set, SetOnce.set.
  step_cases Hs; try done; auto.
  all: unfold SetOnce.set.
  all: destruct (SetOnce._set_event _target_value0) eqn:Hl; simpl;
    rewrite ?Hl; auto.
  all: intros [[? ?]|?]; simplify_eq; auto.
Qed.

Lemma fired w f target schedule s :
  run schedule (init w f target) = Some s →
  settled_with (_target_value s) (Marker TIMEOUT_TRIGGERED)
  ∨ _bail_on_timeout_thread s = Fire →
  TimerExpires ∈ schedule.
Proof.
  revert s. induction schedule as [|a l IH] using rev_ind; intros s Hr Hf.
  - simpl in Hr. simplify_eq. by destruct Hf as [[? ?]|?].
  - rewrite run_app in Hr.
    destruct (run l (init w f target)) as [s1|] eqn:H1; [|done].
    simpl in Hr. destruct (step a s1) as [s2|] eqn:H2; [|done].
    simplify_eq. apply elem_of_app.
    destruct a; try (right; apply list_elem_of_singleton; done).
    all: left; apply (IH s1 eq_refl); by eapply fired_step.
Qed.

(** X9: [TimedOut] is raised only when the wait of the timeout thread has
    timed out: in a run in which it did not, the terminal latch never holds
    [TIMEOUT_TRIGGERED] and [block_until_target_successes()] never raises
    [TimedOut]; and the timeout thread ends with the cancel event set. *)
Theorem timed_out_only_after_the_timer w f target schedule s :
  run schedule (init w f target) = Some s →
  (settled_with (_target_value s) (Marker TIMEOUT_TRIGGERED) →
   TimerExpires ∈ schedule)
  ∧ ((block_until_target_successes s).1 = Raises TimedOut →
     TimerExpires ∈ schedule)
  ∧ (_bail_on_timeout_thread s = Bailed → _cancel_event s = true).
Proof.
  intros Hr.
  assert (Hrc : reachable (init w f target) s) by by exists schedule.
  destruct (tidy_reachable _ _ _ _ Hrc) as (_ & _ & Hb & _).
  split; [|split; [|done]].
  - intros Hl. eapply fired; eauto.
  - intros Hx. eapply fired; [done|]. left.
    unfold WorkerPool.block_until_target_successes, settled_with,
      SetOnce.get, SetOnce.is_set in *.
    destruct (SetOnce._set_event (_unexpected_error s)); [done|].
    destruct (_target_value s) as [v e]; simpl in *.
    destruct e; [|done]. destruct v as [ x | ]; [|done].
    destruct x as [ m | c ]; [done|]. by destruct c.
Qed.
(** *** The error of the producer, once consumed *)

Lemma consumed_step a s s' :
  step a s = Some s' →
  out_of_loop (_produce_values_thread s) = true →
  SetOnce.is_set (_unexpected_error s) = false →
  out_of_loop (_produce_values_thread s') = true
  ∧ SetOnce.is_set (_unexpected_error s') = false.
Proof. intros Hs Ho He. by step_cases Hs. Qed.

Lemma consumed_run schedule s s' :
  run schedule s = Some s' →
  out_of_loop (_produce_values_thread s) = true →
  SetOnce.is_set (_unexpected_error s) = false →
  out_of_loop (_produce_values_thread s') = true
  ∧ SetOnce.is_set (_unexpected_error s') = false.
Proof.
  revert s. induction schedule as [|a l IH]; intros s Hrun Ho He;
    simpl in Hrun.
  - by simplify_eq.
  - destruct (step a s) as [s1|] eqn:Hs; [|done].
    destruct (consumed_step _ _ _ Hs Ho He). eauto.
Qed.

(** X10: [block_until_target_successes()] consumes the error of the
    producer: after it has raised it, the error latch is unset in every
    later state, so that no later [join()] raises and no later
    [block_until_target_successes()] raises a [RuntimeError]. *)
Theorem producer_error_consumed_by_block_until w f target s schedule s' :
  reachable (init w f target) s →
  SetOnce.is_set (_unexpected_error s) = true →
  run schedule (block_until_target_successes s).2 = Some s' →
  SetOnce.is_set (_unexpected_error s') = false
  ∧ (∀ e, (join s').1 ≠ Raises e)
  ∧ (∀ msg, (block_until_target_successes s').1 ≠ Raises (RuntimeError msg)).
Proof.
  intros Hr He Hrun.
  destruct (tidy_reachable _ _ _ _ Hr) as (_ & _ & _ & Herr & _).
  destruct (Herr He) as [Hout _].
  rewrite block_until_raises_the_error in Hrun by done. simpl in Hrun.
  destruct (consumed_run _ _ _ Hrun) as [_ He'];
    [by destruct s|by destruct s|].
  split; [done|]. split.
  - intros e. unfold WorkerPool.join.
    destruct (_stopped s'); [done|]. destruct (threads_finished s'); [|done].
    simpl. by rewrite He'.
  - intros msg. unfold WorkerPool.block_until_target_successes.
    rewrite He'. unfold SetOnce.get.
    destruct (SetOnce._set_event _); [|done].
    destruct (SetOnce._value _) as [ x | ]; [|done].
    destruct x as [ m | c ]; [done|]. by destruct c.
Qed.

(** *** What is recorded *)

(** X11: every key of the success dictionary and of the failure dictionary
    is a value the factory has yielded in the run. *)
Theorem recorded_values_come_from_the_factory w f target schedule s k :
  run schedule (init w f target) = Some s →
  k ∈ dom (get_successes s) ∨ k ∈ dom (get_failures s) →
  k ∈ emitted schedule (init w f target).
Proof.
  intros Hr Hk. pose proof (held_run _ _ _ Hr) as Hh.
  assert (Hin : k ∈ held s).
  { unfold held. rewrite !elem_of_app, !elem_of_elements.
    destruct Hk; auto. }
  match type of Hh with
  | _ ⊆+ _ ++ ?h => assert (Hnil : h = [])
  end.
  { unfold held. simpl. by rewrite dom_empty_L, elements_empty. }
  rewrite Hnil, app_nil_r in Hh.
  exact (elem_of_submseteq _ _ _ Hin Hh).
Qed.

Lemma size_insert_S {A} (k : V) (x : A) (m : gmap V A) :
  size (<[k:=x]> m) ≤ S (size m).
Proof. rewrite map_size_insert. destruct (m !! k); simpl; lia. Qed.

Lemma started_run schedule s s' :
  run schedule s = Some s' →
  _started_tasks s' = _started_tasks s + length (emitted schedule s).
Proof.
  revert s. induction schedule as [|a l IH]; intros s Hr; simpl in *.
  - simplify_eq. lia.
  - destruct (step a s) as [s1|] eqn:Hs; [|done].
    rewrite (IH _ Hr), length_app.
    assert (_started_tasks s1
            = _started_tasks s + length (WorkerPool.emits value_factory a s))
      as ->; [|lia].
    clear IH Hr. unfold WorkerPool.emits.
    step_cases Hs; simpl; lia.
Qed.

Lemma recorded_step a s s' :
  step a s = Some s' →
  size (_successes s) + size (_failures s) ≤ _finished_tasks s →
  size (_successes s') + size (_failures s') ≤ _finished_tasks s'.
Proof.
  intros Hs Hle. step_cases Hs; try done.
  all: repeat match goal with
       | |- context [size (<[?k:=?x]> ?m)] =>
           pose proof (size_insert_S k x m);
           generalize dependent (size (<[k:=x]> m)); intros
       end; lia.
Qed.

(** X12: [started_tasks] is the number of values the factory has yielded in
    the run, and the two dictionaries together never hold more entries than
    there are finished tasks. *)
Theorem counters_bound_the_dictionaries w f target schedule s :
  run schedule (init w f target) = Some s →
  _started_tasks s = length (emitted schedule (init w f target))
  ∧ size (get_successes s) + size (get_failures s) ≤ _finished_tasks s
  ∧ size (get_successes s) + size (get_failures s)
    ≤ length (emitted schedule (init w f target)).
Proof.
  intros Hr. pose proof (started_run _ _ _ Hr) as Hst. simpl in Hst.
  assert (Hrec : size (_successes s) + size (_failures s)
                 ≤ _finished_tasks s).
  { revert Hr. apply (run_ind (λ s, size (_successes s) + size (_failures s)
                                    ≤ _finished_tasks s)).
    - simpl. rewrite !map_size_empty. lia.
    - intros a s1 s2 _ Hle Hs. by eapply recorded_step. }
  assert (Hreach : reachable (init w f target) s) by by exists schedule.
  destruct (accounted_reachable _ _ _ _ Hreach) as [Hacc _].
  unfold get_successes, get_failures. lia.
Qed.

Lemma snapshot_keys_step a s s' :
  step a s = Some s' →
  (∀ m, settled_with (_target_value s) (Snapshot m) →
        Z.of_nat (size m) = _target_successes s
        ∧ dom m ⊆ dom (_successes s)) →
  ∀ m, settled_with (_target_value s') (Snapshot m) →
       Z.of_nat (size m) = _target_successes s'
       ∧ dom m ⊆ dom (_successes s').
Proof.
  intros Hs IH m. step_cases Hs; try (apply IH).
  all: unfold settled_with, SetOnce.is_set, SetOnce.set in *.
  all: destruct (SetOnce._set_event _target_value0) eqn:Hl; simpl in *.
  all: intros [Hset Hval]; try discriminate.
  all: try (destruct (IH m (conj eq_refl Hval)) as [? Hd]; split; [done|];
            rewrite ?dom_insert_L;
            first [done|etrans; [exact Hd|apply union_subseteq_r]]).
  all: simplify_eq.
  all: match goal with
       | Hc : _ && _ = true |- _ =>
           apply andb_true_iff in Hc as [_ Hc%Z.eqb_eq]
       end; done.
Qed.

(** X13: a snapshot the terminal latch is settled with has exactly
    [target_successes] entries, its keys remain keys of the success
    dictionary, and [block_until_target_successes()] returns it unless an
    error of the producer is latched. *)
Theorem snapshot_has_target_size w f target s m :
  reachable (init w f target) s →
  settled_with (_target_value s) (Snapshot m) →
  Z.of_nat (size m) = target
  ∧ dom m ⊆ dom (get_successes s)
  ∧ (SetOnce.is_set (_unexpected_error s) = false →
     (block_until_target_successes s).1 = Returns (Some m)).
Proof.
  intros Hr Hm.
  assert (Hs : Z.of_nat (size m) = _target_successes s
               ∧ dom m ⊆ dom (_successes s)).
  { revert s Hr m Hm.
    apply (reachable_ind (λ s, ∀ m,
             settled_with (_target_value s) (Snapshot m) →
             Z.of_nat (size m) = _target_successes s
             ∧ dom m ⊆ dom (_successes s))).
    - by intros m [? ?].
    - intros a s1 s2 _ IH Hs. by eapply snapshot_keys_step. }
  rewrite (target_successes_reachable _ _ _ _ Hr) in Hs.
  destruct Hs as [? ?]. split; [done|]. split; [done|].
  intros He. unfold WorkerPool.block_until_target_successes. rewrite He.
  destruct Hm as [Hset Hval]. unfold SetOnce.get.
  unfold SetOnce.is_set in Hset. by rewrite Hset, Hval.
Qed.

(** *** After the cancel event *)

Lemma calls_left_step a s s' :
  step a s = Some s' →
  _cancel_event s = true →
  match a, _produce_values_thread s with
  | Produce, PCall _ => 1
  | _, _ => 0
  end + calls_left (_produce_values_thread s')
  ≤ calls_left (_produce_values_thread s).
Proof. intros Hs Hc. step_cases Hs; simpl in *; simplify_eq; lia. Qed.

(** X14: once the cancel event is set, the producer calls the value factory
    at most once more, and not at all when it is past the call of the
    current round. *)
Theorem cancelled_producer_calls_the_factory_once schedule s :
  _cancel_event s = true →
  factory_calls str worker value_factory schedule s ≤ 1
  ∧ (_produce_values_thread s ≠ PRead →
     (∀ n, _produce_values_thread s ≠ PCall n) →
     factory_calls str worker value_factory schedule s = 0).
Proof.
  intros Hc.
  assert (Hle : factory_calls str worker value_factory schedule s
                ≤ calls_left (_produce_values_thread s)).
  { revert s Hc. induction schedule as [|a l IH]; intros s Hc; simpl.
    - lia.
    - destruct (step a s) as [s1|] eqn:Hs.
      + pose proof (calls_left_step _ _ _ Hs Hc).
        pose proof (IH s1 (cancel_event_step _ _ _ Hs Hc)). lia.
      + destruct a; try (simpl; lia).
        destruct (_produce_values_thread s); simpl; lia. }
  split.
  - destruct (_produce_values_thread s); simpl in Hle; lia.
  - intros H1 H2. destruct (_produce_values_thread s) eqn:Hp;
      simpl in Hle; try lia; [done|by destruct (H2 _ eq_refl)].
Qed.

Lemma idle_workers_step a s s' :
  step a s = Some s' →
  _cancel_event s = true →
  Forall (λ t, in_worker t = false) (_threadpool s) →
  _worker s' = _worker s
  ∧ Forall (λ t, in_worker t = false) (_threadpool s').
Proof.
  intros Hs Hc Hf. destruct a; step_unfold Hs; simpl in *;
    try (split; [done|]).
  all: try done.
  all: try (apply Forall_app; split; [done|by apply Forall_singleton]).
  all: try (apply Forall_insert; [done|reflexivity]).
  all: try (by apply Forall_delete).
  all: exfalso.
  all: repeat match goal with
       | H : _ !! _ = Some _ |- _ =>
           pose proof (Forall_lookup_1 _ _ _ _ Hf H); clear H
       end; simpl in *; try discriminate.
Qed.

(** X16: once the cancel event is set and no task is inside the worker, the
    worker is never called again: every task still queued is answered by
    its wrapper without the worker. *)
Theorem cancelled_pool_leaves_the_worker_alone schedule s s' :
  _cancel_event s = true →
  Forall (λ t, in_worker t = false) (_threadpool s) →
  run schedule s = Some s' →
  _worker s' = _worker s
  ∧ Forall (λ t, in_worker t = false) (_threadpool s').
Proof.
  revert s. induction schedule as [|a l IH]; intros s Hc Hf Hr;
    simpl in Hr.
  - by simplify_eq.
  - destruct (step a s) as [s1|] eqn:Hs; [|done].
    destruct (idle_workers_step _ _ _ Hs Hc Hf) as [Hw Hf1].
    destruct (IH s1 (cancel_event_step _ _ _ Hs Hc) Hf1 Hr) as [Hw' ?].
    split; [congruence|done].
Qed.

(** *** The factory along a run *)

(** Only the call of the producer touches the factory. *)
Lemma factory_step a s s' :
  step a s = Some s' →
  (∃ n, a = Produce ∧ _produce_values_thread s = PCall n
        ∧ _value_factory s' = (value_factory (_value_factory s) n).1
        ∧ WorkerPool.emits value_factory a s
          = match (value_factory (_value_factory s) n).2 with
            | inl (Some batch) => batch
            | _ => []
            end)
  ∨ (_value_factory s' = _value_factory s
     ∧ WorkerPool.emits value_factory a s = []).
Proof.
  intros Hs. unfold WorkerPool.emits.
  destruct a; try (right; split; [by step_unfold Hs|done]).
  destruct (_produce_values_thread s) as [ | n | b | | | | ] eqn:Hp;
    try (right; split; [|done]; revert Hp; by step_unfold Hs).
  left. exists n. split; [done|]. split; [done|]. split.
  - revert Hp. step_unfold Hs; intros; simplify_eq;
      match goal with Hf : value_factory _ _ = _ |- _ => by rewrite Hf end.
  - by destruct (value_factory (_value_factory s) n) as [f1 r].
Qed.

(** *** What the dictionaries hold *)

Lemma faithful_init w f target :
  faithful str worker (init w f target : pool).
Proof.
  unfold faithful. simpl. split; [done|]. split; [done|].
  split; [|split]; intros *; try rewrite lookup_empty; done.
Qed.

Lemma genuine_insert (m : gmap V R) value result :
  genuine str worker (Success value result) →
  (∀ k r, m !! k = Some r → genuine str worker (Success k r)) →
  ∀ k r, <[value:=result]> m !! k = Some r →
         genuine str worker (Success k r).
Proof.
  intros Hn Hm k r [[<- <-]|[_ ?]]%lookup_insert_Some; [done|eauto].
Qed.

Lemma faithful_step a s s' :
  step a s = Some s' → faithful str worker s → faithful str worker s'.
Proof.
  intros Hs Hf. step_cases Hs; try done.
  all: destruct Hf as (Ht & Hq & Hsu & Hfa & Hsn); unfold faithful;
    simpl in *.
  all: repeat match goal with
       | H : _ !! _ = Some _ |- _ =>
           pose proof (Forall_lookup_1 _ _ _ _ Ht H); clear H
       | H : Forall _ (_ :: _) |- _ => apply Forall_cons in H as [? ?]
       end; simpl in *.
  all: split; [|split; [|split; [|split]]]; try done.
  all: try (apply Forall_app; split; [done|by apply Forall_singleton]).
  all: try (by apply Forall_delete).
  all: try (apply Forall_insert; [done|]; simpl; try done).
  all: try (by apply genuine_insert).
  all: try match goal with
       | Hsl : _sleep ?c = inr _ |- _ =>
           unfold _sleep in Hsl; destruct c; by simplify_eq
       end.
  all: try match goal with
       | Hw : worker ?w ?v = (_, inl _) |- _ => exists w; by rewrite Hw
       | Hw : worker ?w ?v = (_, inr ?x) |- _ =>
           destruct x; simpl; [done|]; eexists w, _; by rewrite Hw
       end.
  all: try (intros k x [[<- <-]|[_ ?]]%lookup_insert_Some; [done|eauto]).
  all: unfold SetOnce.set; destruct (SetOnce._set_event _); simpl;
    [done|].
  all: intros m k r ?; simplify_eq; by apply genuine_insert.
Qed.

Lemma faithful_reachable w f target s :
  reachable (init w f target) s → faithful str worker s.
Proof.
  apply (reachable_ind (faithful str worker)).
  - apply faithful_init.
  - intros a s1 s2 _ Hf Hs. by eapply faithful_step.
Qed.

(** X18: what the pool records is what the worker did: every entry of the
    success dictionary, and of the dictionary
    [block_until_target_successes()] returns, maps a value to a result the
    worker has returned for that value, and every entry of the failure
    dictionary maps a value to the [str] of an exception the worker has
    raised for it. *)
Theorem recorded_outcomes_are_the_workers w f target s :
  reachable (init w f target) s →
  (∀ k r, get_successes s !! k = Some r →
          ∃ w, (worker w k).2 = inl r)
  ∧ (∀ k x, get_failures s !! k = Some x →
            ∃ w e, (worker w k).2 = inr (Exception e) ∧ x = str e)
  ∧ (∀ m k r, (block_until_target_successes s).1 = Returns (Some m) →
              m !! k = Some r → ∃ w, (worker w k).2 = inl r).
Proof.
  intros Hr.
  destruct (faithful_reachable _ _ _ _ Hr) as (_ & _ & Hsu & Hfa & Hsn).
  split; [exact Hsu|]. split; [exact Hfa|].
  intros m k r Hb. apply (Hsn m k r). revert Hb.
  unfold WorkerPool.block_until_target_successes, SetOnce.get.
  destruct (SetOnce.is_set (_unexpected_error s)); [done|].
  destruct (SetOnce._set_event (_target_value s)); [|done].
  destruct (SetOnce._value (_target_value s)) as [ x | ]; [|done].
  destruct x as [ m' | c ]; [by intros [= ->]|by destruct c].
Qed.

(** *** After the timeout *)

Lemma timed_out_step a s s' :
  step a s = Some s' →
  _bail_on_timeout_thread s = Fire
  ∨ SetOnce.is_set (_target_value s) = true →
  _bail_on_timeout_thread s' = Fire
  ∨ SetOnce.is_set (_target_value s') = true.
Proof.
  intros Hs Hf. step_cases Hs; simpl in *; auto.
  all: try (destruct Hf as [?|?]; [discriminate|]).
  all: try (right; apply is_set_set).
  all: try (by right).
  all: try (by left).
Qed.

Lemma timed_out_run w f target schedule s :
  run schedule (init w f target) = Some s →
  TimerExpires ∈ schedule →
  _bail_on_timeout_thread s = Fire
  ∨ SetOnce.is_set (_target_value s) = true.
Proof.
  revert s. induction schedule as [|a l IH] using rev_ind; intros s Hr Hin.
  - by apply elem_of_nil in Hin.
  - rewrite run_app in Hr.
    destruct (run l (init w f target)) as [s1|] eqn:H1; [|done].
    simpl in Hr. destruct (step a s1) as [s2|] eqn:H2; [|done].
    simplify_eq. apply elem_of_app in Hin as [Hin|Hin].
    + eapply timed_out_step; [done|]. by apply IH.
    + apply list_elem_of_singleton in Hin as <-. left.
      unfold WorkerPool.step, WorkerPool.timer_expires in H2.
      destruct (_bail_on_timeout_thread s1); try done.
      destruct (_cancel_event s1); [done|]. by simplify_eq.
Qed.

(** X19: a timeout always comes to the caller: in a run in which the wait of
    the timeout thread has timed out, once that thread is past its [set] the
    terminal latch is settled and [block_until_target_successes()] does not
    block. *)
Theorem timeout_settles_the_latch w f target schedule s :
  run schedule (init w f target) = Some s →
  TimerExpires ∈ schedule →
  _bail_on_timeout_thread s ≠ Fire →
  SetOnce.is_set (_target_value s) = true
  ∧ (block_until_target_successes s).1 ≠ Blocks.
Proof.
  intros Hr Hin Hb.
  destruct (timed_out_run _ _ _ _ _ Hr Hin) as [?|Hset]; [done|].
  split; [done|].
  unfold WorkerPool.block_until_target_successes, SetOnce.get.
  unfold SetOnce.is_set in Hset. rewrite Hset.
  destruct (SetOnce.is_set (_unexpected_error s)); [done|].
  destruct (SetOnce._value (_target_value s)) as [ x | ]; [|done].
  destruct x as [ m | c ]; [done|]. by destruct c.
Qed.

End PoolFacts.

(** ** The pool fed by an [AllAtOnceFactory] *)

Section AllAtOnceFacts.

Context {V R E W : Type} `{Countable V}.
Variable str : E → string.
Variable worker : W → V → W * (R + @WorkerPool.raised E).

Import WorkerPool.

Local Abbreviation step :=
  (WorkerPool.step str worker AllAtOnceFactory.__call__).
Local Abbreviation run :=
  (WorkerPool.run str worker AllAtOnceFactory.__call__).
Local Abbreviation emitted :=
  (WorkerPool.emitted str worker AllAtOnceFactory.__call__).
Local Abbreviation pool :=
  (@WorkerPool.t V R E W (AllAtOnceFactory.t V) _ _).

Implicit Types (s : pool) (schedule : list action).

(** X15: an [AllAtOnceFactory] yields its whole list at the first call and
    [None] at every later one, whatever success counts it is passed. *)
Theorem all_at_once_yields_once (vs : list V) (n : nat) (ns : list nat) :
  AllAtOnceFactory.replay (E:=E) (AllAtOnceFactory.new vs) (n :: ns)
  = inl (Some vs) :: replicate (length ns) (inl None).
Proof.
  simpl. f_equal.
  induction ns as [|k l IH]; simpl; [done|]. by f_equal.
Qed.

Lemma all_at_once_step a s s' :
  step a s = Some s' →
  AllAtOnceFactory.values (_value_factory s')
  = AllAtOnceFactory.values (_value_factory s)
  ∧ (AllAtOnceFactory._produced (_value_factory s) = true →
     AllAtOnceFactory._produced (_value_factory s') = true)
  ∧ WorkerPool.emits AllAtOnceFactory.__call__ a s
    = if AllAtOnceFactory._produced (_value_factory s) then []
      else if AllAtOnceFactory._produced (_value_factory s')
           then AllAtOnceFactory.values (_value_factory s)
           else [].
Proof.
  intros Hs.
  destruct (factory_step _ _ _ _ _ _ Hs) as [(n & _ & _ & Hf & He)|[Hf He]];
    rewrite Hf, He; clear Hs Hf He.
  - unfold AllAtOnceFactory.__call__.
    by destruct (AllAtOnceFactory._produced (_value_factory s)) eqn:Hp;
      simpl; rewrite ?Hp.
  - by destruct (AllAtOnceFactory._produced (_value_factory s)).
Qed.

Lemma all_at_once_run schedule s s' :
  run schedule s = Some s' →
  AllAtOnceFactory.values (_value_factory s')
  = AllAtOnceFactory.values (_value_factory s)
  ∧ (AllAtOnceFactory._produced (_value_factory s) = true →
     AllAtOnceFactory._produced (_value_factory s') = true)
  ∧ emitted schedule s
    = if AllAtOnceFactory._produced (_value_factory s) then []
      else if AllAtOnceFactory._produced (_value_factory s')
           then AllAtOnceFactory.values (_value_factory s)
           else [].
Proof.
  revert s. induction schedule as [|a l IH]; intros s Hr; simpl in *.
  - simplify_eq. by destruct (AllAtOnceFactory._produced _).
  - destruct (step a s) as [s1|] eqn:Hs; [|done].
    destruct (all_at_once_step _ _ _ Hs) as (Hv1 & Hp1 & He1).
    destruct (IH _ Hr) as (Hv2 & Hp2 & He2).
    rewrite He1, He2, Hv2, Hv1. split; [done|]. split; [auto|].
    destruct (AllAtOnceFactory._produced (_value_factory s)) eqn:Hp.
    + by rewrite (Hp1 eq_refl).
    + destruct (AllAtOnceFactory._produced (_value_factory s1)) eqn:Hq.
      * by rewrite (Hp2 eq_refl), app_nil_r.
      * done.
Qed.

(** X17: a pool fed by an [AllAtOnceFactory] over [vs] draws the list [vs]
    from it at most once: the values drawn in a run are [vs] once the factory
    has produced and none before, and as many tasks are started. *)
Theorem all_at_once_pool_draws_the_list_once w (vs : list V) target
    schedule s :
  run schedule (init w (AllAtOnceFactory.new vs) target) = Some s →
  emitted schedule (init w (AllAtOnceFactory.new vs) target)
  = (if AllAtOnceFactory._produced (_value_factory s) then vs else [])
  ∧ _started_tasks s
    = (if AllAtOnceFactory._produced (_value_factory s)
       then length vs else 0)
  ∧ (∀ k, k ∈ dom (get_successes s) ∨ k ∈ dom (get_failures s) → k ∈ vs).
Proof.
  intros Hr. destruct (all_at_once_run _ _ _ Hr) as (_ & _ & He).
  simpl in He. split; [done|]. split.
  - pose proof (started_run _ _ _ _ _ _ Hr) as Hst. simpl in Hst.
    rewrite Hst, He. by destruct (AllAtOnceFactory._produced _).
  - intros k Hk.
    assert (Hin : k ∈ held s).
    { unfold held. rewrite !elem_of_app, !elem_of_elements.
      destruct Hk; auto. }
    pose proof (held_run _ _ _ _ _ _ Hr) as Hh.
    match type of Hh with
    | _ ⊆+ _ ++ ?h => assert (Hnil : h = [])
    end.
    { unfold held. simpl. by rewrite dom_empty_L, elements_empty. }
    rewrite Hnil, app_nil_r, He in Hh.
    pose proof (elem_of_submseteq _ _ _ Hin Hh) as Hx.
    destruct (AllAtOnceFactory._produced _); [done|].
    by apply elem_of_nil in Hx.
Qed.

End AllAtOnceFacts.

(** ** The round trip *)

Section RoundTripFacts.

Import WorkerPool Examples RoundTrip.

Local Abbreviation step :=
  (WorkerPool.step message_of identity (@AllAtOnceFactory.__call__ Z string)).
Local Abbreviation run :=
  (WorkerPool.run message_of identity (@AllAtOnceFactory.__call__ Z string)).
Local Abbreviation reachable :=
  (WorkerPool.reachable message_of identity
     (@AllAtOnceFactory.__call__ Z string)).

Implicit Types (s : pool) (a : action) (schedule : list action).

(** Induction over the states of a calm run. *)
Lemma calm_run_ind (P : pool → Prop) s0 :
  P s0 →
  (∀ a s s', reachable s0 s → P s → calm a = true →
             step a s = Some s' → P s') →
  ∀ schedule s,
    undisturbed schedule = true → run schedule s0 = Some s → P s.
Proof.
  intros H0 Hstep schedule.
  induction schedule as [|a l IH] using rev_ind; intros s Hc Hrun.
  - simpl in Hrun. by simplify_eq.
  - rewrite run_app in Hrun. unfold undisturbed in *.
    rewrite forallb_app in Hc.
    apply andb_true_iff in Hc as [Hl Ha]. simpl in Ha.
    rewrite andb_true_r in Ha.
    destruct (run l s0) as [s1|] eqn:E1; [|done]. simpl in Hrun.
    destruct (step a s1) as [s2|] eqn:E2; [|done]. simplify_eq.
    eapply Hstep; [by exists l | by apply IH | done | done].
Qed.

Lemma size_insert_le_S {A} (k : Z) (x : A) (m : gmap Z A) :
  size (<[k:=x]> m) ≤ S (size m).
Proof. rewrite map_size_insert. destruct (m !! k); simpl; lia. Qed.

Lemma one_to_fst N : ((λ i : Z, (i, i)) <$> one_to N).*1 = one_to N.
Proof.
  rewrite <-list_fmap_compose. apply list_fmap_id.
Qed.

Lemma all_successes_lookup N v :
  all_successes N !! v = Some v ↔ v ∈ one_to N.
Proof.
  unfold all_successes. rewrite <-elem_of_list_to_map.
  - rewrite list_elem_of_fmap. naive_solver.
  - rewrite one_to_fst. apply NoDup_seqZ.
Qed.

Lemma all_successes_lookup_inv N k x :
  all_successes N !! k = Some x → x = k ∧ k ∈ one_to N.
Proof.
  unfold all_successes. intros Hk%elem_of_list_to_map_2.
  apply list_elem_of_fmap in Hk as (i & ? & ?). by simplify_eq.
Qed.

Lemma all_successes_size N : size (all_successes N) = N.
Proof.
  unfold all_successes. rewrite map_size_list_to_map.
  - rewrite length_fmap. unfold one_to. rewrite length_seqZ. lia.
  - rewrite one_to_fst. apply NoDup_seqZ.
Qed.

Lemma invariant_init N target : invariant N target (round_trip N target).
Proof.
  split; simpl; try done.
  all: try (unfold winding_down; simpl; naive_solver).
  all: try (rewrite map_size_empty; lia).
  - intros v Hv. by apply elem_of_nil in Hv.
  - apply map_empty_subseteq.
Qed.

(** Once the cancel event is set or the result processor is past its last
    check, nothing is left to do but to stop. *)
Lemma idle N target s :
  accounted s → invariant N target s →
  _cancel_event s = true ∨ winding_down s →
  _threadpool s = [] ∧ outcomes (_result_queue s) = 0
  ∧ _produce_values_thread s = PDone
  ∧ _finished_tasks s = _started_tasks s.
Proof.
  intros [Hacc Hsent] Hi Hw.
  assert (Hd : winding_down s).
  { destruct Hw as [Hc|Hw]; [|done].
    destruct (inv_cancel _ _ _ Hi Hc); unfold winding_down; auto. }
  destruct (inv_drained _ _ _ Hi Hd) as [Hst Hfs].
  rewrite Hsent in * by auto. simpl in Hacc.
  repeat split; try done; try lia.
  apply length_zero_iff_nil. lia.
Qed.

Lemma no_outcomes_no_values N (queue : list (@message Z Z)) :
  Forall (fine_message N) queue → outcomes queue = 0 →
  queue ≫= message_value = [].
Proof.
  induction 1 as [|m queue Hm _ IH]; [done|]. rewrite bind_cons.
  destruct m as [o|c]; simpl in *; [done|].
  subst c. intros Ho. by rewrite IH.
Qed.

(** Once the result processor is past its last check, every value is in the
    success dictionary. *)
Lemma complete N target s :
  accounted s → invariant N target s → winding_down s →
  _successes s = all_successes N.
Proof.
  intros Hacc Hi Hw.
  destruct (idle _ _ _ Hacc Hi (or_intror Hw)) as (Htp & Hq & Hp & _).
  pose proof (inv_successes _ _ _ Hi) as Hsub.
  apply (anti_symm (⊆)); [done|].
  apply map_subseteq_spec. intros k x Hk.
  destruct (all_successes_lookup_inv _ _ _ Hk) as [-> Hin].
  assert (Hprod : AllAtOnceFactory._produced (_value_factory s) = true).
  { destruct (AllAtOnceFactory._produced _) eqn:Hf; [done|].
    destruct (inv_fresh _ _ _ Hi Hf) as [?|[? ?]]; congruence. }
  destruct (inv_located _ _ _ Hi Hprod k Hin) as [Hfl|Hd].
  - unfold in_flight in Hfl. rewrite Hp, Htp in Hfl. simpl in Hfl.
    rewrite (no_outcomes_no_values N _ (inv_queue _ _ _ Hi) Hq) in Hfl.
    by apply elem_of_nil in Hfl.
  - apply elem_of_dom in Hd as [y Hy].
    pose proof (lookup_weaken _ _ _ _ Hy Hsub) as Hy'.
    rewrite Hk in Hy'. by simplify_eq.
Qed.

(** Unfolds the calls of the two callables of the round trip. *)
Ltac callables :=
  repeat match goal with
  | H : AllAtOnceFactory.__call__ ?f _ = _ |- _ =>
      unfold AllAtOnceFactory.__call__ in H;
      destruct f as [? []]; simpl in H; simplify_eq
  | H : identity _ _ = _ |- _ => unfold identity in H; simplify_eq
  end.

(** One calm step from a state that satisfies the invariant, with
    everything that is known before the step unfolded. *)
Ltac calm_step Hr Hi Hc Hs :=
  let Hacc := fresh "Hacc" in
  let Hsent := fresh "Hsent" in
  let Hidle := fresh "Hidle" in
  let Hcomplete := fresh "Hcomplete" in
  pose proof (accounted_reachable _ _ _ _ _ _ _ Hr) as Hacc; clear Hr;
  pose proof (idle _ _ _ Hacc Hi) as Hidle;
  pose proof (complete _ _ _ Hacc Hi) as Hcomplete;
  match type of Hs with
  | WorkerPool.step _ _ _ ?a _ = Some _ => destruct a
  end;
  try discriminate Hc; clear Hc;
  step_unfold Hs; callables;
  destruct Hi, Hacc as [Hacc Hsent];
  unfold sentinel_observed, winding_down, in_flight, SetOnce.is_set,
    WorkerPool._sleep in *;
  simpl in *;
  repeat match goal with
  | H : Forall _ (_ :: _) |- _ => apply Forall_cons in H as [? ?]
  end;
  simpl in *; destruct_and?; simplify_eq;
  try match goal with
  | H : _ !! _ = Some _, Ht : Forall (fine_task _) _ |- _ =>
      pose proof (Forall_lookup_1 _ _ _ _ Ht H)
  end;
  try match goal with
  | H : (if ?c then _ else _) = _ |- _ => destruct c eqn:?; simplify_eq
  end;
  simpl in *; try done;
  try (destruct Hidle as (Hidle & _); [by left|];
       rewrite Hidle in *; done).

Lemma step_plain N target a s s' :
  reachable (round_trip N target) s →
  invariant N target s → calm a = true → step a s = Some s' →
  _target_successes s' = target
  ∧ _unexpected_error s' = SetOnce.new
  ∧ _failures s' = ∅
  ∧ AllAtOnceFactory.values (_value_factory s') = one_to N
  ∧ (AllAtOnceFactory._produced (_value_factory s') = false →
     _produce_values_thread s' = PRead
     ∨ ∃ n, _produce_values_thread s' = PCall n)
  ∧ _produce_values_thread s' ≠ PCancel
  ∧ match _bail_on_timeout_thread s' with
    | Waiting => True
    | Fire => False
    | SetCancel | Bailed => _cancel_event s' = true
    end
  ∧ (∀ v, v ∈ batch_of (_produce_values_thread s') → v ∈ one_to N).
Proof.
  intros Hr Hi Hc Hs. calm_step Hr Hi Hc Hs.
  all: repeat split; simpl; try done.
  all: try (intros Hf; destruct (inv_fresh0 Hf) as [?|[? ?]];
            simplify_eq; eauto; fail).
  all: try (simplify_eq; done).
  all: try (by rewrite <-inv_factory0).
  all: try (intros v Hv; apply inv_batch0; by right).
Qed.

Lemma step_shapes N target a s s' :
  reachable (round_trip N target) s →
  invariant N target s → calm a = true → step a s = Some s' →
  Forall (fine_task N) (_threadpool s')
  ∧ Forall (fine_message N) (_result_queue s')
  ∧ _successes s' ⊆ all_successes N.
Proof.
  intros Hr Hi Hc Hs. calm_step Hr Hi Hc Hs.
  all: repeat split; simpl; try done.
  all: try (apply Forall_app; split; [done|]; repeat constructor; try done;
            apply inv_batch0; by left).
  all: try (apply Forall_insert; [done|]; simpl; intuition; fail).
  all: try (by apply Forall_delete).
  all: try (apply insert_subseteq_l; [|done]; apply all_successes_lookup;
            intuition congruence).
Qed.

Lemma step_located N target a s s' :
  reachable (round_trip N target) s →
  invariant N target s → calm a = true → step a s = Some s' →
  AllAtOnceFactory._produced (_value_factory s') = true →
  ∀ v, v ∈ one_to N → v ∈ in_flight s' ∨ v ∈ dom (_successes s').
Proof.
  intros Hr Hi Hc Hs. calm_step Hr Hi Hc Hs.
  all: intros Hp v Hv.
  all: try (by apply inv_located0).
  all: try (left; rewrite <-inv_factory0 in Hv;
            change (v ∈ (z :: l0) ++ (_threadpool0 ≫= task_value)
                      ++ (_result_queue0 ≫= message_value));
            apply elem_of_app; by left).
  all: try (rewrite <-inv_factory0 in Hv; by apply elem_of_nil in Hv).
  all: specialize (inv_located0 Hp v Hv).
  all: try erewrite bind_insert_delete by eauto.
  all: try erewrite (bind_lookup_delete _ _threadpool0) in inv_located0
         by eauto.
  all: rewrite ?bind_app in *; simpl in *.
  all: clear -inv_located0.
  all: rewrite ?dom_insert_L in *.
  all: repeat first
         [ rewrite elem_of_app in * | rewrite elem_of_cons in *
         | rewrite elem_of_union in * | rewrite elem_of_singleton in *
         | rewrite elem_of_nil in * ].
  all: tauto.
Qed.

Lemma step_winding_down N target a s s' :
  reachable (round_trip N target) s →
  invariant N target s → calm a = true → step a s = Some s' →
  (_cancel_event s' = true →
   pc (_process_results_thread s') = SetStopped
   ∨ pc (_process_results_thread s') = Exited)
  ∧ (winding_down s' →
     producer_stopped (_process_results_thread s') = true
     ∧ _finished_tasks s' = _started_tasks s').
Proof.
  intros Hr Hi Hc Hs. calm_step Hr Hi Hc Hs.
  all: split; unfold winding_down; simpl; try done.
  all: try (intros; simplify_eq; auto; fail).
  all: try (intros Hw; destruct Hidle as (_ & _ & ? & _); [auto|]; done).
  all: try (intros Hx; destruct (inv_cancel0 Hx); congruence).
  all: try (intros [|[|]]; congruence).
  intros _.
  match goal with
  | Hb : _ && _ = true |- _ => apply andb_true_iff in Hb as [? ?%Nat.eqb_eq]
  end.
  done.
Qed.

Lemma step_latch N target a s s' :
  reachable (round_trip N target) s →
  invariant N target s → calm a = true → step a s = Some s' →
  (success_event_reached (_process_results_thread s') = true →
   SetOnce.is_set (_target_value s') = true)
  ∧ ((1 ≤ target ≤ Z.of_nat (size (_successes s')))%Z →
     SetOnce.is_set (_target_value s') = true)
  ∧ (pc (_process_results_thread s') = Exited →
     SetOnce.is_set (_target_value s') = true)
  ∧ (_target_value s' = SetOnce.new
     ∨ (∃ m, _target_value s' = SetOnce.mk (Some (Snapshot m)) true
             ∧ Z.of_nat (size m) = target ∧ (1 ≤ target)%Z
             ∧ m ⊆ all_successes N)
     ∨ (_target_value s' = SetOnce.mk (Some (Marker PRODUCER_STOPPED)) true
        ∧ pc (_process_results_thread s') = Exited
        ∧ ¬ (1 ≤ target ≤ Z.of_nat N)%Z)).
Proof.
  intros Hr Hi Hc Hs. calm_step Hr Hi Hc Hs.
  all: repeat split; unfold SetOnce.is_set; simpl; try done.
  all: try (intros; simplify_eq; auto; fail).
  all: try (intros Hx; rewrite Hx in *; done).
  all: try (intros _; apply is_set_set).
  all: try (destruct inv_latch0 as [?|[(m & ? & ? & ? & ?)|(? & ? & ?)]];
            [by left | right; left; eauto | congruence]).
  - match goal with
    | Hb : _ && _ = true |- _ => apply andb_true_iff in Hb as [_ Hb%Z.eqb_eq]
    end.
    destruct inv_latch0 as [->|[(m & -> & ?)|(-> & ? & ?)]];
      [|right; left; by exists m|congruence].
    right; left. eexists. split; [reflexivity|].
    split; [done|]. split.
    + match goal with
      | Hb : context [size (<[?k:=?x]> ?m)] |- _ =>
          pose proof (size_insert_pos k x m)
      end.
      lia.
    + apply insert_subseteq_l; [|done]. by apply all_successes_lookup.
  - intros Hx.
    match goal with
    | Hb : _ && _ = false |- _ =>
        apply andb_false_iff in Hb as [Hb%negb_false_iff|Hb%Z.eqb_neq]
    end; [auto|].
    apply inv_enough0.
    match goal with
    | |- context [size ?m] =>
        match type of Hx with
        | context [size (<[?k:=?x]> m)] =>
            pose proof (size_insert_le_S k x m)
        end
    end.
    lia.
  - assert (Hfull : _successes0 = all_successes N) by auto.
    destruct inv_latch0 as [Hn|[(m & Hm & ?)|(Hm & ? & ?)]];
      [|right; left; exists m; by rewrite Hm|congruence].
    right; right. rewrite Hn. split; [done|]. split; [done|].
    intros Hx. rewrite Hn, Hfull, all_successes_size in inv_enough0.
    by specialize (inv_enough0 Hx).
Qed.

Lemma invariant_step N target a s s' :
  reachable (round_trip N target) s →
  invariant N target s → calm a = true → step a s = Some s' →
  invariant N target s'.
Proof.
  intros Hr Hi Hc Hs.
  destruct (step_plain _ _ _ _ _ Hr Hi Hc Hs)
    as (? & ? & ? & ? & ? & ? & ? & ?).
  destruct (step_shapes _ _ _ _ _ Hr Hi Hc Hs) as (? & ? & ?).
  pose proof (step_located _ _ _ _ _ Hr Hi Hc Hs).
  destruct (step_winding_down _ _ _ _ _ Hr Hi Hc Hs) as (? & ?).
  destruct (step_latch _ _ _ _ _ Hr Hi Hc Hs) as (? & ? & ? & ?).
  by split.
Qed.

(** The invariant holds in every state of an undisturbed run. *)
Lemma invariant_run N target schedule s :
  undisturbed schedule = true →
  run schedule (round_trip N target) = Some s →
  invariant N target s.
Proof.
  apply (calm_run_ind (invariant N target)).
  - apply invariant_init.
  - intros a s1 s2. apply invariant_step.
Qed.

(** *** Termination *)

Lemma sum_insert {A} (f : A → nat) (l : list A) i x y :
  l !! i = Some x →
  sum_list_with f (<[i:=y]> l) + f x = sum_list_with f l + f y.
Proof.
  revert i. induction l as [|z l IH]; intros [|i] Hi; simplify_eq/=; [lia|].
  specialize (IH i Hi). lia.
Qed.

Lemma sum_delete {A} (f : A → nat) (l : list A) i x :
  l !! i = Some x → sum_list_with f (delete i l) + f x = sum_list_with f l.
Proof.
  revert i. induction l as [|z l IH]; intros [|i] Hi; simplify_eq/=; [lia|].
  specialize (IH i Hi). lia.
Qed.

(** Every step of a thread of the pool brings the end nearer. *)
Lemma weight_step N target a s s' :
  invariant N target s → of_thread a = true → step a s = Some s' →
  weight s' < weight s.
Proof.
  intros Hi Ha Hs. pose proof (inv_fresh _ _ _ Hi) as Hf. clear Hi.
  destruct a; try discriminate Ha; clear Ha.
  all: step_unfold Hs; callables; unfold weight; simpl in *.
  all: rewrite ?length_app, ?sum_list_with_app; simpl.
  all: try lia.
  all: try (destruct (AllAtOnceFactory._produced _) eqn:Hp;
            [lia | destruct (Hf eq_refl) as [?|[? ?]]; simplify_eq; lia]).
  all: try match goal with
       | H : ?l !! ?i = Some ?x
         |- context [sum_list_with ?f (<[?i:=?y]> ?l)] =>
           pose proof (sum_insert f l i x y H); simpl in *; lia
       | H : ?l !! ?i = Some ?x
         |- context [sum_list_with ?f (delete ?i ?l)] =>
           pose proof (sum_delete f l i x H); simpl in *; lia
       end.
  all: match goal with H : pc _ = _ |- _ => rewrite H end; simpl; lia.
Qed.

(** From every state of an undisturbed run the threads can go on to their
    end, by steps of their own and without the timeout firing. *)
Lemma finishes N target n schedule s :
  weight s < n →
  undisturbed schedule = true →
  run schedule (round_trip N target) = Some s →
  ∃ schedule' s',
    threads_only schedule' = true
    ∧ run schedule' s = Some s'
    ∧ threads_finished s' = true.
Proof.
  revert schedule s. induction n as [|n IH]; intros schedule s Hw Hu Hr.
  { lia. }
  destruct (threads_finished s) eqn:Hf.
  { by exists [], s. }
  destruct (no_deadlock _ _ _ _ _ _ s (ex_intro _ schedule Hr) Hf)
    as (a & s1 & Ha & Hs).
  pose proof (invariant_run _ _ _ _ Hu Hr) as Hi.
  pose proof (weight_step _ _ _ _ _ Hi Ha Hs) as Hlt.
  destruct (IH (schedule ++ [a]) s1) as (schedule' & s' & Ht & Hr' & Hf').
  - lia.
  - unfold undisturbed in *. rewrite forallb_app, Hu. simpl.
    by destruct a.
  - by eapply run_snoc.
  - exists (a :: schedule'), s'. split; [|split; [|done]].
    + unfold threads_only in *. simpl. by rewrite Ha, Ht.
    + simpl. by rewrite Hs.
Qed.

(** C4, as the code has it: for every [N ≥ 1], with the identity worker and
    the factory yielding [1..N], in every run in which the timeout does not
    fire and the caller does not cancel: when [1 ≤ target_successes ≤ N],
    [block_until_target_successes()] blocks until it returns a dictionary
    with at least [target_successes] entries, each of them [i: i] for some
    [i] in [1..N]; otherwise, that is when [target_successes > N] or
    [target_successes ≤ 0], it blocks until it raises [OutOfValues], the
    success dictionary being [{i: i for i in 1..N}] by then.  When the three
    service threads have finished the method does not block and the success
    dictionary is [{i: i for i in 1..N}].  And the threads do finish: while
    one of them has not, one of the threads of the pool can take a step;
    every such step lowers [weight]; so some schedule of the threads leads
    to the end. *)
Theorem round_trip_outcome N target schedule s :
  1 ≤ N →
  undisturbed schedule = true →
  run schedule (round_trip N target) = Some s →
  let r := (block_until_target_successes message_of s).1 in
  (if decide (1 ≤ target ≤ Z.of_nat N)%Z
   then r = Blocks
        ∨ ∃ m, r = Returns (Some m)
               ∧ (target ≤ Z.of_nat (size m))%Z
               ∧ m ⊆ all_successes N
   else r = Blocks
        ∨ (r = Raises OutOfValues ∧ get_successes s = all_successes N))
  ∧ (threads_finished s = true →
     r ≠ Blocks ∧ get_successes s = all_successes N)
  ∧ (threads_finished s = false →
     ∃ a s', of_thread a = true ∧ step a s = Some s')
  ∧ (∀ a s', of_thread a = true → step a s = Some s' → weight s' < weight s)
  ∧ (∃ schedule' s',
       threads_only schedule' = true
       ∧ run schedule' s = Some s'
       ∧ threads_finished s' = true).
Proof.
  intros HN Hu Hr r.
  pose proof (invariant_run _ _ _ _ Hu Hr) as Hi.
  assert (Hreach : reachable (round_trip N target) s) by by exists schedule.
  pose proof (accounted_reachable _ _ _ _ _ _ _ Hreach) as Hacc.
  assert (Hexit : threads_finished s = true →
                  pc (_process_results_thread s) = Exited).
  { unfold threads_finished. destruct (_produce_values_thread s); try done.
    by destruct (pc _). }
  assert (Hr_eq : r = match SetOnce.get (_target_value s) with
                      | Blocks => Blocks
                      | Raises x => Raises x
                      | Returns (Some (Marker TIMEOUT_TRIGGERED)) =>
                          Raises TimedOut
                      | Returns (Some (Marker PRODUCER_STOPPED)) =>
                          Raises OutOfValues
                      | Returns (Some (Snapshot result)) =>
                          Returns (Some result)
                      | Returns None => Returns None
                      end).
  { unfold r, WorkerPool.block_until_target_successes.
    rewrite (inv_error _ _ _ Hi). simpl.
    destruct (SetOnce.get _) as [|[[?|[]]|]|]; done. }
  clearbody r. split; [|split; [|split; [|split]]].
  - destruct (inv_latch _ _ _ Hi)
      as [Hl|[(m & Hl & Hsz & Hpos & Hsub)|(Hl & Hpc & Hno)]];
      rewrite Hl in Hr_eq; simpl in Hr_eq; subst r.
    + destruct (decide _); by left.
    + pose proof (map_subseteq_size _ _ Hsub) as Hle.
      rewrite all_successes_size in Hle.
      destruct (decide _) as [|Hn]; [|lia].
      right. exists m. split; [done|]. split; [lia|done].
    + destruct (decide _); [done|]. right. split; [done|].
      apply (complete N target); [done..|].
      unfold winding_down. auto.
  - intros Hf%Hexit. split.
    + pose proof (inv_exited _ _ _ Hi Hf) as Hset.
      unfold SetOnce.get in Hr_eq. unfold SetOnce.is_set in Hset.
      rewrite Hset in Hr_eq. subst r.
      by destruct (SetOnce._value _) as [[?|[]]|].
    + apply (complete N target); [done..|]. unfold winding_down. auto.
  - intros Hf. exact (no_deadlock _ _ _ _ _ _ s Hreach Hf).
  - intros a s'. by apply (weight_step N target).
  - by apply (finishes N target (S (weight s)) schedule); [lia|..].
Qed.

End RoundTripFacts.

(** ** Concrete runs *)

Section ExampleFacts.

Import WorkerPool Examples.

Lemma broken_end_reachable :
  reachable message_of identity broken_factory broken broken_end.
Proof. exists broken_schedule. vm_compute. reflexivity. Qed.

Lemma round_trip_slow_reachable :
  reachable message_of identity AllAtOnceFactory.__call__ (round_trip 1 1)
    round_trip_slow.
Proof. exists slow_schedule. vm_compute. reflexivity. Qed.

Lemma repeated_end_reachable :
  reachable message_of flaky AllAtOnceFactory.__call__ repeated repeated_end.
Proof. exists repeated_schedule. vm_compute. reflexivity. Qed.



(** C2 fails on the code: in the pool whose factory raises, run to the end
    of its threads, [join()] raises the error of the producer and leaves it
    latched, and a later [block_until_target_successes()] raises it again. *)
Theorem producer_error_raised_twice :
  run message_of identity broken_factory broken_schedule broken
  = Some broken_end
  ∧ (join message_of broken_end).1
    = Raises
        (RuntimeError "Unexpected error in the producer thread: boom")
  ∧ (block_until_target_successes message_of
       (join message_of broken_end).2).1
    = Raises
        (RuntimeError "Unexpected error in the producer thread: boom").
Proof. split; [vm_compute; reflexivity|]. split; vm_compute; reflexivity. Qed.








(** An instance of [snapshot_only_at_exact_target]: [round_trip 1 0] at its
    end. *)
Lemma snapshot_only_at_exact_target_witness :
  (0 ≤ 0)%Z
  ∧ (∀ m, ¬ settled_with (_target_value round_trip_end_0) (Snapshot m))
  ∧ (∀ r, (block_until_target_successes message_of round_trip_end_0).1
          ≠ Returns r).
Proof.
  split; [lia|].
  apply (snapshot_only_at_exact_target message_of identity
           (@AllAtOnceFactory.__call__ Z string)
           tt (AllAtOnceFactory.new (one_to 1)) 0%Z round_trip_end_0).
  - exists complete_schedule. vm_compute. reflexivity.
  - lia.
Defined.

(** C4 as stated fails: with [N = 1] and [target_successes = 1] the one
    success settles the latch with the snapshot before the result processor
    finds the pool drained, and [block_until_target_successes()] returns
    [{1: 1}] where the claim has [OutOfValues]. *)
Lemma target_equal_to_N_returns_the_snapshot :
  ¬ (∀ N target schedule s,
       1 ≤ N → (Z.of_nat N ≤ target)%Z →
       undisturbed schedule = true →
       run message_of identity AllAtOnceFactory.__call__ schedule
         (round_trip N target) = Some s →
       threads_finished s = true →
       (block_until_target_successes message_of s).1 = Raises OutOfValues).
Proof.
  intros Hc.
  assert (Hr : run message_of identity AllAtOnceFactory.__call__
                 complete_schedule (round_trip 1 1) = Some round_trip_end)
    by (vm_compute; reflexivity).
  specialize (Hc 1 1%Z complete_schedule round_trip_end).
  assert (Hx : (block_until_target_successes message_of round_trip_end).1
               = Raises OutOfValues).
  { apply Hc; [lia|lia|reflexivity|exact Hr|reflexivity]. }
  vm_compute in Hx. discriminate Hx.
Qed.

(** An instance of [round_trip_outcome]: [round_trip 1 1] at its end. *)
Lemma round_trip_outcome_witness :
  1 ≤ 1
  ∧ undisturbed complete_schedule = true
  ∧ (threads_finished round_trip_end = true →
     (block_until_target_successes message_of round_trip_end).1 ≠ Blocks
     ∧ get_successes round_trip_end = all_successes 1).
Proof.
  split; [lia|]. split; [reflexivity|].
  apply (round_trip_outcome 1 1%Z complete_schedule round_trip_end).
  - lia.
  - reflexivity.
  - vm_compute. reflexivity.
Defined.

(** An instance of [cancel_event_stays_set]: [round_trip 1 1], cancelled at
    the start and run to its end. *)
Lemma cancel_event_stays_set_witness :
  _cancel_event (cancel (round_trip 1 1)) = true
  ∧ _cancel_event cancelled_end = true
  ∧ cancel (cancel cancelled_end) = cancel cancelled_end.
Proof.
  split; [reflexivity|].
  apply (cancel_event_stays_set message_of identity
           (@AllAtOnceFactory.__call__ Z string)
           cancelled_schedule (cancel (round_trip 1 1)) cancelled_end).
  - vm_compute. reflexivity.
  - reflexivity.
Defined.

(** An instance of [terminal_latch_settled_once]: [round_trip 1 1] at its
    end, and after a [block_until_target_successes()] and a [join()]. *)
Lemma terminal_latch_settled_once_witness :
  SetOnce.is_set (_target_value round_trip_end) = true
  ∧ _target_value (set_stopped true round_trip_end)
    = _target_value round_trip_end
  ∧ (SetOnce.is_set (_unexpected_error round_trip_end) = false →
     SetOnce.is_set (_unexpected_error (set_stopped true round_trip_end))
     = false →
     (block_until_target_successes message_of
        (set_stopped true round_trip_end)).1
     = (block_until_target_successes message_of round_trip_end).1).
Proof.
  split; [reflexivity|].
  apply (terminal_latch_settled_once message_of identity
           (@AllAtOnceFactory.__call__ Z string)
           [CallBlockUntilTargetSuccesses; CallJoin]
           round_trip_end (set_stopped true round_trip_end)).
  - vm_compute. reflexivity.
  - reflexivity.
Defined.

(** An instance of [processor_ends_with_the_pool_drained]: [round_trip 1 1]
    at its end. *)
Lemma processor_ends_with_the_pool_drained_witness :
  pc (_process_results_thread round_trip_end) = Exited
  ∧ _produce_values_thread round_trip_end = PDone
  ∧ _result_queue round_trip_end = []
  ∧ _threadpool round_trip_end = []
  ∧ _finished_tasks round_trip_end = _started_tasks round_trip_end
  ∧ _cancel_event round_trip_end = true
  ∧ SetOnce.is_set (_target_value round_trip_end) = true.
Proof.
  split; [reflexivity|].
  apply (processor_ends_with_the_pool_drained message_of identity
           (@AllAtOnceFactory.__call__ Z string)
           tt (AllAtOnceFactory.new (one_to 1)) 1%Z round_trip_end).
  - exists complete_schedule. vm_compute. reflexivity.
  - reflexivity.
Defined.


(** An instance of [producer_error_ends_the_production]: the pool whose
    factory raises, at the end of its threads, and a [join()] after it. *)
Lemma producer_error_ends_the_production_witness :
  SetOnce.is_set (_unexpected_error broken_end) = true
  ∧ out_of_loop (_produce_values_thread broken_end) = true
  ∧ (_produce_values_thread broken_end ≠ PCancel →
     _cancel_event broken_end = true)
  ∧ factory_calls message_of identity broken_factory [CallJoin] broken_end
    = 0
  ∧ _value_factory (set_stopped true broken_end) = _value_factory broken_end.
Proof.
  split; [reflexivity|].
  apply (producer_error_ends_the_production message_of identity
           broken_factory tt tt 1%Z broken_end [CallJoin]
           (set_stopped true broken_end)).
  - exists broken_schedule. vm_compute. reflexivity.
  - reflexivity.
  - vm_compute. reflexivity.
Defined.


(** An instance of [producer_leaves_one_marker]: [round_trip 1 1] with the
    producer finished and its marker taken off the queue. *)
Lemma producer_leaves_one_marker_witness :
  sentinels (_result_queue round_trip_slow)
  + (if producer_stopped (_process_results_thread round_trip_slow)
     then 1 else 0)
  = (if finished_producing (_produce_values_thread round_trip_slow)
     then 1 else 0).
Proof.
  apply (producer_leaves_one_marker message_of identity
           (@AllAtOnceFactory.__call__ Z string)
           tt (AllAtOnceFactory.new (one_to 1)) 1%Z round_trip_slow).
  exists slow_schedule. vm_compute. reflexivity.
Defined.


(** An instance of [timed_out_only_after_the_timer]: the complete run of
    [round_trip 1 1], in which the timeout does not fire. *)
Lemma timed_out_only_after_the_timer_witness :
  (settled_with (_target_value round_trip_end) (Marker TIMEOUT_TRIGGERED) →
   TimerExpires ∈ complete_schedule)
  ∧ ((block_until_target_successes message_of round_trip_end).1
     = Raises TimedOut → TimerExpires ∈ complete_schedule)
  ∧ (_bail_on_timeout_thread round_trip_end = Bailed →
     _cancel_event round_trip_end = true).
Proof.
  apply (timed_out_only_after_the_timer message_of identity
           (@AllAtOnceFactory.__call__ Z string)
           tt (AllAtOnceFactory.new (one_to 1)) 1%Z complete_schedule
           round_trip_end).
  vm_compute. reflexivity.
Defined.

(** An instance of [producer_error_consumed_by_block_until]: the pool whose
    factory raises, at the end of its threads; the method raises the error,
    and the [join()] after it does not. *)
Lemma producer_error_consumed_by_block_until_witness :
  SetOnce.is_set (_unexpected_error broken_end) = true
  ∧ SetOnce.is_set
      (_unexpected_error
         (set_stopped true (set_unexpected_error SetOnce.new broken_end)))
    = false
  ∧ (∀ e, (join message_of
             (set_stopped true
                (set_unexpected_error SetOnce.new broken_end))).1
          ≠ Raises e)
  ∧ (∀ msg,
       (block_until_target_successes message_of
          (set_stopped true
             (set_unexpected_error SetOnce.new broken_end))).1
       ≠ Raises (RuntimeError msg)).
Proof.
  split; [reflexivity|].
  apply (producer_error_consumed_by_block_until message_of identity
           broken_factory tt tt 1%Z broken_end [CallJoin]
           (set_stopped true
              (set_unexpected_error SetOnce.new broken_end))).
  - exists broken_schedule. vm_compute. reflexivity.
  - reflexivity.
  - vm_compute. reflexivity.
Defined.

(** An instance of [recorded_values_come_from_the_factory]: the key 1 of the
    success dictionary of [round_trip 1 1] at its end. *)
Lemma recorded_values_come_from_the_factory_witness :
  1%Z ∈ emitted message_of identity AllAtOnceFactory.__call__
          complete_schedule (round_trip 1 1).
Proof.
  apply (recorded_values_come_from_the_factory message_of identity
           (@AllAtOnceFactory.__call__ Z string)
           tt (AllAtOnceFactory.new (one_to 1)) 1%Z complete_schedule
           round_trip_end 1%Z).
  - vm_compute. reflexivity.
  - left. apply elem_of_dom. exists 1%Z. vm_compute. reflexivity.
Defined.

(** An instance of [counters_bound_the_dictionaries]: the complete run of
    [round_trip 1 1]. *)
Lemma counters_bound_the_dictionaries_witness :
  _started_tasks round_trip_end
  = length (emitted message_of identity AllAtOnceFactory.__call__
              complete_schedule (round_trip 1 1))
  ∧ size (get_successes round_trip_end) + size (get_failures round_trip_end)
    ≤ _finished_tasks round_trip_end
  ∧ size (get_successes round_trip_end) + size (get_failures round_trip_end)
    ≤ length (emitted message_of identity AllAtOnceFactory.__call__
                complete_schedule (round_trip 1 1)).
Proof.
  apply (counters_bound_the_dictionaries message_of identity
           (@AllAtOnceFactory.__call__ Z string)
           tt (AllAtOnceFactory.new (one_to 1)) 1%Z complete_schedule
           round_trip_end).
  vm_compute. reflexivity.
Defined.

(** An instance of [snapshot_has_target_size]: [round_trip 1 1] at its end,
    the latch settled with [{1: 1}]. *)
Lemma snapshot_has_target_size_witness :
  settled_with (_target_value round_trip_end) (Snapshot {[1%Z := 1%Z]})
  ∧ Z.of_nat (size ({[1%Z := 1%Z]} : gmap Z Z)) = 1%Z
  ∧ dom ({[1%Z := 1%Z]} : gmap Z Z) ⊆ dom (get_successes round_trip_end)
  ∧ (SetOnce.is_set (_unexpected_error round_trip_end) = false →
     (block_until_target_successes message_of round_trip_end).1
     = Returns (Some {[1%Z := 1%Z]})).
Proof.
  split; [split; reflexivity|].
  apply (snapshot_has_target_size message_of identity
           (@AllAtOnceFactory.__call__ Z string)
           tt (AllAtOnceFactory.new (one_to 1)) 1%Z round_trip_end
           {[1%Z := 1%Z]}).
  - exists complete_schedule. vm_compute. reflexivity.
  - split; reflexivity.
Defined.

(** An instance of [cancelled_producer_calls_the_factory_once]:
    [round_trip 1 1] cancelled at the start. *)
Lemma cancelled_producer_calls_the_factory_once_witness :
  _cancel_event (cancel (round_trip 1 1)) = true
  ∧ factory_calls message_of identity AllAtOnceFactory.__call__
      cancelled_schedule (cancel (round_trip 1 1)) ≤ 1
  ∧ (_produce_values_thread (cancel (round_trip 1 1)) ≠ PRead →
     (∀ n, _produce_values_thread (cancel (round_trip 1 1)) ≠ PCall n) →
     factory_calls message_of identity AllAtOnceFactory.__call__
       cancelled_schedule (cancel (round_trip 1 1)) = 0).
Proof.
  split; [reflexivity|].
  apply (cancelled_producer_calls_the_factory_once message_of identity
           (@AllAtOnceFactory.__call__ Z string)
           cancelled_schedule (cancel (round_trip 1 1))).
  reflexivity.
Defined.

(** An instance of [cancelled_pool_leaves_the_worker_alone]:
    [round_trip 1 1] cancelled at the start and run to its end. *)
Lemma cancelled_pool_leaves_the_worker_alone_witness :
  _cancel_event (cancel (round_trip 1 1)) = true
  ∧ _worker cancelled_end = _worker (cancel (round_trip 1 1))
  ∧ Forall (λ t, in_worker t = false) (_threadpool cancelled_end).
Proof.
  split; [reflexivity|].
  apply (cancelled_pool_leaves_the_worker_alone message_of identity
           (@AllAtOnceFactory.__call__ Z string)
           cancelled_schedule (cancel (round_trip 1 1)) cancelled_end).
  - reflexivity.
  - apply Forall_nil_2.
  - vm_compute. reflexivity.
Defined.

(** An instance of [all_at_once_pool_draws_the_list_once]: the complete run
    of [round_trip 1 1]. *)
Lemma all_at_once_pool_draws_the_list_once_witness :
  emitted message_of identity AllAtOnceFactory.__call__ complete_schedule
    (round_trip 1 1)
  = (if AllAtOnceFactory._produced (_value_factory round_trip_end)
     then one_to 1 else [])
  ∧ _started_tasks round_trip_end
    = (if AllAtOnceFactory._produced (_value_factory round_trip_end)
       then length (one_to 1) else 0)
  ∧ (∀ k, k ∈ dom (get_successes round_trip_end)
          ∨ k ∈ dom (get_failures round_trip_end) → k ∈ one_to 1).
Proof.
  apply (all_at_once_pool_draws_the_list_once message_of identity
           tt (one_to 1) 1%Z complete_schedule round_trip_end).
  vm_compute. reflexivity.
Defined.

(** An instance of [recorded_outcomes_are_the_workers]: the flaky worker
    over the value 1 yielded twice, both outcomes recorded. *)
Lemma recorded_outcomes_are_the_workers_witness :
  (∀ k r, get_successes repeated_end !! k = Some r →
          ∃ w, (flaky w k).2 = inl r)
  ∧ (∀ k x, get_failures repeated_end !! k = Some x →
            ∃ w e, (flaky w k).2 = inr (Exception e) ∧ x = message_of e)
  ∧ (∀ m k r,
       (block_until_target_successes message_of repeated_end).1
       = Returns (Some m) →
       m !! k = Some r → ∃ w, (flaky w k).2 = inl r).
Proof.
  apply (recorded_outcomes_are_the_workers message_of flaky
           (@AllAtOnceFactory.__call__ Z string)
           0 (AllAtOnceFactory.new [1; 1]%Z) 5%Z repeated_end).
  exists repeated_schedule. vm_compute. reflexivity.
Defined.

(** An instance of [timeout_settles_the_latch]: [round_trip 1 1] timing out
    before anything else happens. *)
Lemma timeout_settles_the_latch_witness :
  TimerExpires ∈ timeout_schedule
  ∧ _bail_on_timeout_thread timed_out ≠ Fire
  ∧ SetOnce.is_set (_target_value timed_out) = true
  ∧ (block_until_target_successes message_of timed_out).1 ≠ Blocks.
Proof.
  split; [apply list_elem_of_here|]. split; [discriminate|].
  apply (timeout_settles_the_latch message_of identity
           (@AllAtOnceFactory.__call__ Z string)
           tt (AllAtOnceFactory.new (one_to 1)) 1%Z timeout_schedule
           timed_out).
  - vm_compute. reflexivity.
  - apply list_elem_of_here.
  - discriminate.
Defined.

End ExampleFacts.
